(** * persistable-durable-object: the [Persistable] class decorator

    A shallow embedding of [src/persistable.ts].  The decorator wraps the
    data properties of a Durable Object in accessor pairs that load a
    property lazily from the [_persisted_kv] table of the object's SQLite
    storage and write it through on assignment.

    Layout of the development:
    - JavaScript values as far as the decorator inspects them (type [any]),
      values that contain themselves included;
    - [JSON.stringify] and [JSON.parse] at the level of JSON documents;
    - the SQL storage handle, with a journal of the statements issued and a
      schedule of failures;
    - the class body: [initializeStorage], [setupPropertyPersistence],
      [getSerializableProperties], [makePropertyPersistent] (its [get] and
      [set] closures) and [isSerializable];
    - the properties of the specification, one theorem each. *)

From Stdlib Require Import Floats.
From stdpp Require Import gmap strings list.

Open Scope string_scope.
Open Scope list_scope.
Set Warnings "-register-all,-clear-no-such-hyp".

(** ** JSON documents

    The [value] column of [_persisted_kv] holds text.  The text itself (string
    escapes, the digits of a number) is the JavaScript engine's business; the
    decorator only ever hands a value to [JSON.stringify] and a column to
    [JSON.parse].  A text is therefore kept as the JSON document it denotes,
    or as [Malformed] when it denotes none. *)

Inductive json : Type :=
| JNull
| JBool (b : bool)
| JNumber (f : float)
| JString (s : string)
| JArray (items : list json)
| JObject (members : list (string * json)).

Inductive text : Type :=
| Document (j : json)
| Malformed (raw : string).

(** What serialising one value gives: a text, [undefined] (no text at all),
    or an exception. *)
Inductive outcome : Type :=
| Text (j : json)
| NoText
| Throws.

(** How a call of the decorator's own code ends: it returns, or its recursion
    never ends and the engine, out of stack, throws a RangeError. *)
Inductive completion (A : Type) : Type :=
| Returns (a : A)
| RangeError.
Arguments Returns {A} a.
Arguments RangeError {A}.

(** ** JavaScript values

    [any] is the TypeScript type of the decorator's values.

    - A function is identified by [fid].  The only calls ever made on a
      function held in a value are those of [JSON.stringify]: as the [toJSON]
      of its holder or, from [Date.prototype.toJSON], as the [toISOString] of
      a date; [as_toJSON] records what serialising the result of that call
      gives at this occurrence.
    - An array has its indexed slots ([None] is a hole) and its other own
      properties.
    - An object has the properties it inherits from user-defined prototypes,
      its own enumerable properties, and a [shape] telling which built-in
      prototype ends its chain.
    - A value can contain itself: [VBack up] is a reference back to a value
      that encloses this occurrence, the array, object or function [up]
      levels above it (0 is the one that holds the reference).  A traversal
      that comes to such a reference is back at a value it is in the middle
      of.  Values that share a part without containing themselves are trees
      with that part repeated.

    Not modelled are accessor and symbol-keyed properties inside a value, and
    the shadowing of the other built-in methods that the code modelled here
    calls on a value: [every] on an array and [valueOf] and [toString] on a
    date are always the built-in ones. *)

Inductive fid : Type :=
| Object_fn          (* the global Object *)
| Date_fn            (* the global Date *)
| Array_fn           (* the global Array *)
| Date_toJSON_fn     (* Date.prototype.toJSON *)
| User_fn (n : N).   (* a function or class of the program *)

Inductive shape : Type :=
| Ordinary                      (* the chain ends in Object.prototype *)
| DateObject (iso : option string)
    (* the chain passes through Date.prototype; the time value is kept as its
       ISO-8601 text, [None] for an invalid date *)
| Bare.                         (* the chain never reaches Object.prototype *)

Inductive any : Type :=
| VUndefined
| VNull
| VBoolean (b : bool)
| VNumber (f : float)
| VString (s : string)
| VBigInt (z : Z)
| VSymbol (description : string)
| VFunction (f : fid) (as_toJSON : outcome) (own : list (string * any))
| VArray (slots : list (option any)) (own : list (string * any))
| VObject (sh : shape) (inherited : list (string * any)) (own : list (string * any))
| VBack (up : nat).

(** Induction over [any] that reaches inside the property lists. *)
Section any_induction.
Variable P : any → Prop.
Hypothesis Hundefined : P VUndefined.
Hypothesis Hnull : P VNull.
Hypothesis Hboolean : ∀ b, P (VBoolean b).
Hypothesis Hnumber : ∀ f, P (VNumber f).
Hypothesis Hstring : ∀ s, P (VString s).
Hypothesis Hbigint : ∀ z, P (VBigInt z).
Hypothesis Hsymbol : ∀ d, P (VSymbol d).
Hypothesis Hfunction : ∀ f r own,
  Forall (λ kv, P kv.2) own → P (VFunction f r own).
Hypothesis Harray : ∀ slots own,
  Forall (λ o, from_option P True o) slots →
  Forall (λ kv, P kv.2) own → P (VArray slots own).
Hypothesis Hobject : ∀ sh inh own,
  Forall (λ kv, P kv.2) inh →
  Forall (λ kv, P kv.2) own → P (VObject sh inh own).
Hypothesis Hback : ∀ up, P (VBack up).

End any_induction.


(** [typeof v === "function"]. *)
Definition callable (v : any) : bool :=
  match v with VFunction _ _ _ => true | _ => false end.

(** A property list is searched from the front; a key occurs once in the own
    properties of a real object. *)
Fixpoint assoc {A} (name : string) (props : list (string * A)) : option A :=
  match props with
  | [] => None
  | (k, x) :: rest => if String.eqb k name then Some x else assoc name rest
  end.

(** [Date.prototype.toJSON], as the member of a date with the time value
    [iso] and the user-defined properties [inh] and [own].  Called by
    [JSON.stringify] it returns [null] for a time value that is not finite and
    [this.toISOString()] otherwise: the built-in [toISOString] gives the ISO
    text; a property of that name shadows it, is called if it holds a
    function, and makes the call a TypeError if it holds anything else. *)
Definition Date_toJSON (iso : option string) (inh own : list (string * any)) : any :=
  VFunction Date_toJSON_fn
    match iso with
    | None => Text JNull
    | Some s =>
        match assoc "toISOString" own, assoc "toISOString" inh with
        | Some m, _ | None, Some m =>
            match m with
            | VFunction _ r _ => r
            | _ => Throws
            end
        | None, None => Text (JString s)
        end
    end
    [].

(** The members of the built-in prototypes that the decorator or
    [JSON.stringify] reads: [constructor] and [toJSON]. *)

Definition builtin_member (v : any) (name : string) : any :=
  match v with
  | VObject Ordinary _ _ =>
      if String.eqb name "constructor" then VFunction Object_fn NoText []
      else VUndefined
  | VObject (DateObject iso) inh own =>
      if String.eqb name "constructor" then VFunction Date_fn NoText []
      else if String.eqb name "toJSON" then Date_toJSON iso inh own
      else VUndefined
  | VArray _ _ =>
      if String.eqb name "constructor" then VFunction Array_fn NoText []
      else VUndefined
  | _ => VUndefined
  end.

(** [v.name] for a named (non-index) property of an object, an array or a
    function: own properties first, then the user-defined prototypes, then
    the built-in prototype.  On a primitive no member the decorator asks for
    exists. *)
Definition member (v : any) (name : string) : any :=
  match v with
  | VFunction _ _ own | VArray _ own =>
      default (builtin_member v name) (assoc name own)
  | VObject _ inh own =>
      default (default (builtin_member v name) (assoc name inh)) (assoc name own)
  | _ => VUndefined
  end.

(** [f === Object] and the like: functions are compared by identity. *)
Definition fid_eqb (f g : fid) : bool :=
  match f, g with
  | Object_fn, Object_fn | Date_fn, Date_fn | Array_fn, Array_fn
  | Date_toJSON_fn, Date_toJSON_fn => true
  | User_fn m, User_fn n => N.eqb m n
  | _, _ => false
  end.

Definition is_function (f : fid) (v : any) : bool :=
  match v with VFunction g _ _ => fid_eqb g f | _ => false end.

(** [v instanceof Date]. *)
Definition instanceof_Date (v : any) : bool :=
  match v with VObject (DateObject _) _ _ => true | _ => false end.

(** [Array.prototype.every] visits the slots that exist, in order, and skips
    holes; it stops at the first element for which the callback does not
    return [true], and an exception of the callback is its own. *)
Definition every {A} (f : A → completion bool) : list (option A) → completion bool :=
  fix visit slots :=
    match slots with
    | [] => Returns true
    | None :: rest => visit rest
    | Some x :: rest =>
        match f x with
        | Returns true => visit rest
        | stop => stop
        end
    end.

(** [Object.values(o).every(f)]. *)
Definition every_value {A} (f : A → completion bool)
    : list (string * A) → completion bool :=
  fix visit props :=
    match props with
    | [] => Returns true
    | kv :: rest =>
        match f kv.2 with
        | Returns true => visit rest
        | stop => stop
        end
    end.

(** ** [isSerializable] (persistable.ts, lines 175-205)

    The recursion has no guard against a value that contains itself: when it
    comes back to an array or object it is in the middle of, it goes round
    again, and the call ends in a RangeError of the engine.  On a value that
    does not contain itself the recursion ends; the stack is taken to be deep
    enough for it. *)
Fixpoint isSerializable (value : any) : completion bool :=
  match value with
  | VNull | VUndefined | VString _ | VNumber _ | VBoolean _ => Returns true
  | VArray slots _ => every isSerializable slots
  | VObject _ _ own =>
      if is_function Object_fn (member value "constructor")
      then every_value isSerializable own
      else if instanceof_Date value then Returns true
      else Returns (callable (member value "toJSON"))
  | VBigInt _ | VSymbol _ | VFunction _ _ _ =>
      (* not an array, [typeof] is not "object", not a Date *)
      Returns (callable (member value "toJSON"))
  | VBack _ => RangeError
  end.

(** ** [JSON.stringify] and [JSON.parse] *)

(** A finite number is written with the digits that read back as the same
    number, except that negative zero is written [0]; [NaN] and the
    infinities are written [null]. *)
Definition number_text (f : float) : json :=
  if PrimFloat.is_finite f
  then JNumber (if PrimFloat.is_zero f && PrimFloat.get_sign f
                then PrimFloat.zero else f)
  else JNull.

(** The elements of an array, written with [f]: a hole or an element without
    text is written [null]; an exception ends everything. *)
Definition SerializeJSONArray (f : any → outcome)
    : list (option any) → option (list json) :=
  fix items l :=
    match l with
    | [] => Some []
    | o :: l' =>
        match match o with Some x => f x | None => NoText end with
        | Throws => None
        | Text j => cons j <$> items l'
        | NoText => cons JNull <$> items l'
        end
    end.

(** The properties of an object, written with [f]: a property without text is
    left out; an exception ends everything. *)
Definition SerializeJSONObject (f : any → outcome)
    : list (string * any) → option (list (string * json)) :=
  fix members l :=
    match l with
    | [] => Some []
    | kv :: l' =>
        match f kv.2 with
        | Throws => None
        | Text j => cons (kv.1, j) <$> members l'
        | NoText => members l'
        end
    end.

(** [JSON.stringify(value)] (ECMAScript's SerializeJSONProperty): a callable
    [toJSON] member of an object replaces the value by what it returns; then
    the value is written by its type.  Coming back to an array or object that
    is being written is a TypeError. *)
Fixpoint JSON_stringify (value : any) : outcome :=
  match member value "toJSON" with
  | VFunction _ r _ => r
  | _ =>
    match value with
    | VNull => Text JNull
    | VBoolean b => Text (JBool b)
    | VString s => Text (JString s)
    | VNumber f => Text (number_text f)
    | VBigInt _ => Throws
    | VUndefined | VSymbol _ | VFunction _ _ _ => NoText
    | VArray slots _ =>
        match SerializeJSONArray JSON_stringify slots with
        | Some js => Text (JArray js)
        | None => Throws
        end
    | VObject _ _ own =>
        match SerializeJSONObject JSON_stringify own with
        | Some ms => Text (JObject ms)
        | None => Throws
        end
    | VBack _ => Throws
    end
  end.

(** [o[k] = x] on the properties being built by the parser: an existing key
    keeps its place and takes the new value, a new key goes last. *)
Fixpoint define {A} (k : string) (x : A) (props : list (string * A))
    : list (string * A) :=
  match props with
  | [] => [(k, x)]
  | (k', y) :: rest =>
      if String.eqb k' k then (k', x) :: rest else (k', y) :: define k x rest
  end.

Definition define_all {A} (props : list (string * A)) : list (string * A) :=
  fold_left (λ acc kv, define kv.1 kv.2 acc) props [].

(** The value a JSON document denotes.  The members of an object are kept in
    the order of the document.  [JSON.parse] puts the members whose key is an
    array index first; the documents the decorator wrote itself, through
    [JSON.stringify], already have them there. *)
Fixpoint revive (j : json) : any :=
  match j with
  | JNull => VNull
  | JBool b => VBoolean b
  | JNumber f => VNumber f
  | JString s => VString s
  | JArray items => VArray (List.map (λ i, Some (revive i)) items) []
  | JObject members =>
      VObject Ordinary [] (define_all (List.map (λ kv, (kv.1, revive kv.2)) members))
  end.

(** [JSON.parse(t)]; [None] is the SyntaxError. *)
Definition JSON_parse (t : text) : option any :=
  match t with
  | Document j => Some (revive j)
  | Malformed _ => None
  end.


(** ** The SQL storage handle ([state.storage.sql])

    The decorator issues three statements.  [journal] lists every statement
    handed to [exec], in order, whether or not it threw.  [faults] is what the
    environment does to the coming calls: the head tells whether the next
    [exec] throws for a reason of the store's own (unreachable, misconfigured);
    an exhausted schedule means no further fault.  The [created_at] and
    [updated_at] columns are never read by the decorator and are left out. *)

Inductive stmt : Type :=
| CreateTable
    (* CREATE TABLE IF NOT EXISTS _persisted_kv (...) *)
| Select (key : string)
    (* SELECT value FROM _persisted_kv WHERE key = ? *)
| InsertOrReplace (key : string) (value : option text).
    (* INSERT OR REPLACE INTO _persisted_kv (key, value, updated_at)
       VALUES (?, ?, CURRENT_TIMESTAMP); the second binding is [None] when
       [JSON.stringify] returned [undefined] *)

Record sql : Type := {
  table : option (gmap string text);   (* [None]: _persisted_kv does not exist *)
  journal : list stmt;
  faults : list bool
}.

(** [sql.exec(q, ...).toArray()]: [None] when the call throws.  A statement
    that throws changes no row.  Besides the scheduled faults, a statement
    throws when the table is missing, and an insert throws on a missing text
    ([value TEXT NOT NULL]). *)
Definition exec (q : stmt) (db : sql) : option (list text) * sql :=
  let issued t :=
    {| table := t; journal := journal db ++ [q]; faults := tail (faults db) |} in
  if default false (head (faults db)) then (None, issued (table db))
  else
    match q, table db with
    | CreateTable, None => (Some [], issued (Some ∅))
    | CreateTable, Some t => (Some [], issued (Some t))
    | Select key, Some t => (Some (option_list (t !! key)), issued (Some t))
    | InsertOrReplace key (Some x), Some t => (Some [], issued (Some (<[key := x]> t)))
    | _, _ => (None, issued (table db))
    end.

(** ** The instance

    An own property of [this] is a plain data property or, once wrapped, the
    accessor pair installed by [makePropertyPersistent]; the [cell] of an
    accessor pair is the state its two closures share: [storageKey], and the
    variables [value] and [initialized]. *)

Record cell : Type := {
  storageKey : string;
  value : any;
  initialized : bool
}.

Inductive slot : Type :=
| Data (v : any)
| Wrapped (c : cell).

(** The first constructor argument as the constructor looks at it: an object
    with a [storage] member ([storage_sql] tells whether [storage.sql] is
    there), or anything else. *)
Inductive argument : Type :=
| State (storage_sql : bool)
| Other.

Record object : Type := {
  own : list (string * slot);
      (* own string-keyed properties, in [Object.getOwnPropertyNames] order *)
  prototypes : list (list (string * any));
      (* the prototype chain, nearest first; data properties *)
  DURABLE_OBJECT_STATE : option bool;
      (* [Some b] once the constructor stored its argument [State b] *)
  ORIGINAL_PROPERTIES : gmap string any
}.

Inductive level : Type := error | warn.

(** The instance together with what it shares with the runtime: the store
    behind [state.storage.sql] and the console. *)
Record world : Type := {
  this : object;
  store : sql;
  console : list (level * string)
}.

(** [state?.storage?.sql] is truthy. *)
Definition has_sql (o : object) : bool :=
  default false (DURABLE_OBJECT_STATE o).

(** [proto[prop]] for the first prototype of a chain. *)
Fixpoint chain_member (protos : list (list (string * any))) (prop : string) : any :=
  match protos with
  | [] => VUndefined
  | p :: rest => default (chain_member rest prop) (assoc prop p)
  end.

Definition with_own (o : object) (l : list (string * slot)) : object :=
  {| own := l; prototypes := prototypes o;
     DURABLE_OBJECT_STATE := DURABLE_OBJECT_STATE o;
     ORIGINAL_PROPERTIES := ORIGINAL_PROPERTIES o |}.

(** [this[ORIGINAL_PROPERTIES].get(propertyName)]. *)
Definition original (o : object) (propertyName : string) : any :=
  default VUndefined (ORIGINAL_PROPERTIES o !! propertyName).

(** *** The [get] closure (persistable.ts, lines 107-137) *)
Definition get (propertyName : string) (c : cell) (w : world) : any * world :=
  if initialized c then (value c, w)
  else
    let '(v, db, log) :=
      if has_sql (this w) then
        match exec (Select (storageKey c)) (store w) with
        | (Some (result :: _), db) =>
            match JSON_parse result with
            | Some v => (v, db, console w)
            | None =>
                (original (this w) propertyName, db,
                 console w ++ [(warn, "Failed to load persisted property " +:+ propertyName +:+ ":")])
            end
        | (Some [], db) => (original (this w) propertyName, db, console w)
        | (None, db) =>
            (original (this w) propertyName, db,
             console w ++ [(warn, "Failed to load persisted property " +:+ propertyName +:+ ":")])
        end
      else (value c, store w, console w) in
    (v, {| this := with_own (this w)
             (define propertyName
                (Wrapped {| storageKey := storageKey c; value := v; initialized := true |})
                (own (this w)));
           store := db; console := log |}).

(** *** The [set] closure (persistable.ts, lines 139-168)

    The call of [isSerializable] (line 141) is outside every [try] and comes
    before the assignment to [value]: when it throws, the setter throws and
    has done nothing.  [JSON.stringify(newValue)] is an argument of the [exec]
    call inside the [try]: when it throws, no statement is issued and the
    failure is logged like one of the store. *)
Definition set (propertyName : string) (c : cell) (newValue : any) (w : world)
    : completion world :=
  let stored :=
    with_own (this w)
      (define propertyName
         (Wrapped {| storageKey := storageKey c; value := newValue;
                     initialized := initialized c |})
         (own (this w))) in
  match isSerializable newValue with
  | RangeError => RangeError
  | Returns true =>
    Returns
      (if has_sql (this w) then
        let failed db :=
          {| this := stored; store := db;
             console := console w ++ [(error, "Failed to persist property " +:+ propertyName +:+ ":")] |} in
        match JSON_stringify newValue with
        | Throws => failed (store w)
        | serialized =>
            let bound := match serialized with Text j => Some (Document j) | _ => None end in
            match exec (InsertOrReplace (storageKey c) bound) (store w) with
            | (Some _, db) => {| this := stored; store := db; console := console w |}
            | (None, db) => failed db
            end
        end
      else {| this := stored; store := store w; console := console w |})
  | Returns false =>
    Returns
      {| this := stored; store := store w;
         console := console w ++
           [(warn, "Property " +:+ propertyName +:+ " is not serializable and won't be persisted")] |}
  end.

(** The world a call leaves behind: the one it returns or, when it throws
    before it has done anything, the one it found. *)
Definition after {A} (found : A) (r : completion A) : A :=
  match r with
  | Returns a => a
  | RangeError => found
  end.

(** *** Property access on the instance: [this[name]] and [this[name] = v]

    [write] is the assignment as a statement in the life of the instance: it
    gives the world after the statement.  When the setter throws, the
    exception leaves the statement, and instance, store and console are as
    they were. *)
Definition read (name : string) (w : world) : any * world :=
  match assoc name (own (this w)) with
  | Some (Wrapped c) => get name c w
  | Some (Data v) => (v, w)
  | None => (chain_member (prototypes (this w)) name, w)
  end.

Definition write (name : string) (v : any) (w : world) : world :=
  match assoc name (own (this w)) with
  | Some (Wrapped c) => after w (set name c v w)
  | _ =>
      {| this := with_own (this w) (define name (Data v) (own (this w)));
         store := store w; console := console w |}
  end.

(** ** The class body that depends on the decorator's arguments *)

Record PersistableOptions : Type := {
  exclude : option (list string);
  include : option (list string);
  prefix : option string
}.

(** [!prop.startsWith("_") && prop !== "constructor"]. *)
Definition admissible (prop : string) : bool :=
  negb (String.prefix "_" prop) && negb (String.eqb prop "constructor").

(** [properties.add(prop)] on a [Set], which keeps insertion order. *)
Definition add (prop : string) (properties : list string) : list string :=
  if bool_decide (prop ∈ properties) then properties else properties ++ [prop].

(** [list.includes(name)]. *)
Definition includes (l : list string) (name : string) : bool :=
  bool_decide (name ∈ l).

Section Persistable.
Variable options : PersistableOptions.
(** The class the decorator was applied to. *)
Variable constructor : fid.

(** [initializeStorage] (lines 29-45). *)
Definition initializeStorage (w : world) : world :=
  if has_sql (this w) then
    match exec CreateTable (store w) with
    | (Some _, db) => {| this := this w; store := db; console := console w |}
    | (None, db) =>
        {| this := this w; store := db;
           console := console w ++ [(error, "Failed to initialize persistence storage:")] |}
    end
  else w.

(** The loop over the prototype chain of [getSerializableProperties]
    (lines 78-92).  [protos] is the chain from [proto] on; [None] is the
    TypeError of reading [constructor] off [null] after the last prototype. *)
Fixpoint walk (protos : list (list (string * any))) (properties : list string)
    : option (list string) :=
  match protos with
  | [] => Some properties
  | proto :: rest =>
      if is_function Object_fn (chain_member protos "constructor")
      then Some properties
      else
        let properties' :=
          fold_left
            (λ s prop,
               if admissible prop && negb (callable (chain_member protos prop))
               then add prop s else s)
            proto.*1 properties in
        match rest with
        | [] => None
        | _ =>
            if is_function constructor (chain_member rest "constructor")
            then Some properties'
            else walk rest properties'
        end
  end.

(** [getSerializableProperties] (lines 67-95). *)
Definition getSerializableProperties (o : object) : option (list string) :=
  walk (prototypes o)
    (fold_left (λ s prop, if admissible prop then add prop s else s) (own o).*1 []).

(** [makePropertyPersistent] (lines 97-173). *)
Definition makePropertyPersistent (propertyName prefix : string) (w : world) : world :=
  let storageKey := prefix +:+ propertyName in
  let '(v0, w) := read propertyName w in
  let w :=
    {| this :=
         {| own := own (this w); prototypes := prototypes (this w);
            DURABLE_OBJECT_STATE := DURABLE_OBJECT_STATE (this w);
            ORIGINAL_PROPERTIES := <[propertyName := v0]> (ORIGINAL_PROPERTIES (this w)) |};
       store := store w; console := console w |} in
  let '(value, w) := read propertyName w in
  {| this := with_own (this w)
       (define propertyName
          (Wrapped {| storageKey := storageKey; value := value; initialized := false |})
          (own (this w)));
     store := store w; console := console w |}.

(** One turn of the loop of [setupPropertyPersistence] (lines 53-64). *)
Definition setup_one (w : world) (propertyName : string) : world :=
  if includes (default [] (exclude options)) propertyName then w
  else if match include options with
          | Some l => negb (includes l propertyName)
          | None => false
          end then w
  else
    let '(v, w) := read propertyName w in
    if callable v then w
    else makePropertyPersistent propertyName (default "" (prefix options)) w.

(** [setupPropertyPersistence] (lines 47-65). *)
Definition setupPropertyPersistence (w : world) : option world :=
  propertyNames ← getSerializableProperties (this w);
  Some (fold_left setup_one propertyNames w).

(** The constructor (lines 18-27).  [fields] and [protos] are the own data
    properties and the prototype chain of the object as [super(...args)]
    leaves it: an extensible object whose own properties are configurable, as
    class fields are, so that [Object.defineProperty] (line 106) goes through.
    [None] is an exception out of the constructor. *)
Definition new (arg0 : argument) (fields : list (string * any))
    (protos : list (list (string * any))) (db : sql)
    (log : list (level * string)) : option world :=
  let o state :=
    {| own := List.map (λ kv, (kv.1, Data kv.2)) fields; prototypes := protos;
       DURABLE_OBJECT_STATE := state; ORIGINAL_PROPERTIES := ∅ |} in
  match arg0 with
  | State b =>
      setupPropertyPersistence
        (initializeStorage {| this := o (Some b); store := db; console := log |})
  | Other => Some {| this := o None; store := db; console := log |}
  end.
End Persistable.

(** ** The life of an instance

    After construction the hosting code reads and assigns properties, one
    operation at a time. *)

Inductive op : Type :=
| Read (name : string)
| Write (name : string) (v : any).

Definition step (w : world) (o : op) : world :=
  match o with
  | Read name => (read name w).2
  | Write name v => write name v w
  end.

Definition run (ops : list op) (w : world) : world := fold_left step ops w.

(** The accessor state of a property, when it is wrapped. *)
Definition field (name : string) (w : world) : option cell :=
  match assoc name (own (this w)) with
  | Some (Wrapped c) => Some c
  | _ => None
  end.

(** [this[name]] on the object as [super(...args)] leaves it: the value a
    property has when it is wrapped. *)
Definition initial (fields : list (string * any))
    (protos : list (list (string * any))) (name : string) : any :=
  default (chain_member protos name) (assoc name fields).


(** ** The Validator's rules, as predicates

    [listed_serializable] reads the rules as a list of classes, any of which
    makes a value serializable.  [serializable] reads them in the order in
    which [isSerializable] tries them: the first rule that applies decides.
    [endless] is the case in which the rules give no answer. *)






(** The value [get] settles on when the cell is not initialized, with the
    store and the console it leaves. *)
Definition load (name : string) (c : cell) (w : world)
    : any * sql * list (level * string) :=
  if has_sql (this w) then
    match exec (Select (storageKey c)) (store w) with
    | (Some (result :: _), db) =>
        match JSON_parse result with
        | Some v => (v, db, console w)
        | None =>
            (original (this w) name, db,
             console w ++ [(warn, "Failed to load persisted property " +:+ name +:+ ":")])
        end
    | (Some [], db) => (original (this w) name, db, console w)
    | (None, db) =>
        (original (this w) name, db,
         console w ++ [(warn, "Failed to load persisted property " +:+ name +:+ ":")])
    end
  else (value c, store w, console w).

(** The three tests a discovered name must pass in the loop of
    [setupPropertyPersistence], on the object as [super(...args)] leaves it. *)
Definition eligible (options : PersistableOptions) (fields : list (string * any))
    (protos : list (list (string * any))) (name : string) : bool :=
  negb (includes (default [] (exclude options)) name) &&
  match include options with
  | Some l => includes l name
  | None => true
  end &&
  negb (callable (initial fields protos name)).

(** The object before the constructor looks at its argument. *)
Definition blank (fields : list (string * any))
    (protos : list (list (string * any))) (state : option bool) : object :=
  {| own := List.map (λ kv, (kv.1, Data kv.2)) fields; prototypes := protos;
     DURABLE_OBJECT_STATE := state; ORIGINAL_PROPERTIES := ∅ |}.

(** The cell [makePropertyPersistent] creates for a property. *)
Definition fresh_cell (options : PersistableOptions) (fields : list (string * any))
    (protos : list (list (string * any))) (name : string) : cell :=
  {| storageKey := default "" (prefix options) +:+ name;
     value := initial fields protos name;
     initialized := false |}.

(** Whether [name] is wrapped once the loop of [setupPropertyPersistence]
    has gone through the names [seen]. *)
Definition wrapped_after (options : PersistableOptions) (fields : list (string * any))
    (protos : list (list (string * any))) (seen : list string) (name : string) : bool :=
  bool_decide (name ∈ seen) && eligible options fields protos name.

(** The state of the loop after the names [seen], started in [w0]: exactly
    the eligible names among [seen] are wrapped, each with its fresh cell and
    its original value recorded; every other property is the data property it
    was; store and console are untouched. *)
Definition setup_inv (options : PersistableOptions) (fields : list (string * any))
    (protos : list (list (string * any))) (seen : list string) (w0 w : world) : Prop :=
  store w = store w0 ∧ console w = console w0 ∧
  prototypes (this w) = protos ∧
  DURABLE_OBJECT_STATE (this w) = DURABLE_OBJECT_STATE (this w0) ∧
  (∀ name, assoc name (own (this w)) =
     if wrapped_after options fields protos seen name
     then Some (Wrapped (fresh_cell options fields protos name))
     else Data <$> assoc name fields) ∧
  (∀ name, ORIGINAL_PROPERTIES (this w) !! name =
     if wrapped_after options fields protos seen name
     then Some (initial fields protos name) else None).

(** ** A concrete object: the class of example.ts

    [MyDurableObject] has the fields [counter], [userData], [settings],
    [items], [tempCallback] and [_internalState] on top of the [ctx] and [env]
    of its base class; its prototype chain is the wrapper class returned by
    the decorator, the class itself, its base class and [Object.prototype]. *)
Module Demo.

Definition MyDurableObject : fid := User_fn 1.

(** A class, called without [new], throws. *)
Definition class (f : fid) : any := VFunction f Throws [].

(** A function that returns nothing, without properties of its own. *)
Definition closure (n : N) : any := VFunction (User_fn n) NoText [].

Definition protos : list (list (string * any)) :=
  [ [ ("constructor", class (User_fn 2));
      ("initializeStorage", closure 10);
      ("setupPropertyPersistence", closure 11);
      ("getSerializableProperties", closure 12);
      ("makePropertyPersistent", closure 13);
      ("isSerializable", closure 14) ];
    [ ("constructor", class MyDurableObject);
      ("increment", closure 20);
      ("fetch", closure 21) ];
    [ ("constructor", class (User_fn 3)) ];
    [ ("constructor", VFunction Object_fn NoText []) ] ].

Definition fields : list (string * any) :=
  [ ("ctx", VObject Ordinary [("constructor", class (User_fn 4))] []);
    ("env", VObject Ordinary [] []);
    ("counter", VNumber 0);
    ("userData", VNull);
    ("settings", VObject Ordinary [] []);
    ("items", VArray [] []);
    ("tempCallback", closure 30);
    ("_internalState", VObject Ordinary [] []) ].

Definition defaults : PersistableOptions :=
  {| exclude := None; include := None; prefix := None |}.

(** A store that has never been used, with a schedule of faults. *)
Definition unused (schedule : list bool) : sql :=
  {| table := None; journal := []; faults := schedule |}.

(** A store in which an earlier instance left [counter] at 5. *)
Definition used (schedule : list bool) : sql :=
  {| table := Some {[ "counter" := Document (JNumber 5) ]};
     journal := []; faults := schedule |}.

(** [new MyDurableObject(state, env)], decorated with [options]. *)
Definition attach (options : PersistableOptions) (arg0 : argument) (db : sql)
    : option world :=
  new options MyDurableObject arg0 fields protos db [].

(** The same, when construction is known to succeed. *)
Definition instance (options : PersistableOptions) (arg0 : argument) (db : sql)
    : world :=
  default {| this := blank fields protos None; store := db; console := [] |}
    (attach options arg0 db).

End Demo.

(** The property an operation is about. *)
Definition target (o : op) : string :=
  match o with
  | Read name | Write name _ => name
  end.

(** What a lookup that does not throw makes of the rows [t]: the value of the
    row under [key] when there is one and it parses, [fallback] otherwise. *)
Definition hydrated (t : gmap string text) (key : string) (fallback : any) : any :=
  match t !! key with
  | Some row => default fallback (JSON_parse row)
  | None => fallback
  end.

(** Whether a call returned (rather than threw). *)
Definition returned {A} (o : option A) : bool :=
  match o with Some _ => true | None => false end.


(** Whether a call returned (rather than ended in a RangeError). *)
Definition completes {A} (r : completion A) : bool :=
  match r with Returns _ => true | RangeError => false end.


(** [q] is the lookup under [key]. *)
Definition is_lookup (key : string) (q : stmt) : bool :=
  match q with
  | Select k => String.eqb k key
  | _ => false
  end.

(** How many of the statements [l] are lookups under [key]. *)
Definition lookups (key : string) (l : list stmt) : nat :=
  length (List.filter (is_lookup key) l).

(** Whether the first read of [name] is still to come: 1 while the property
    is wrapped and Uninitialized, 0 otherwise. *)
Definition pending (name : string) (w : world) : nat :=
  match field name w with
  | Some c => if initialized c then 0 else 1
  | None => 0
  end.

(** One of the two strings is a prefix of the other. *)
Fixpoint comparable (p q : string) : bool :=
  match p, q with
  | String a p', String b q' => Ascii.eqb a b && comparable p' q'
  | _, _ => true
  end.

(** * Properties *)

(** ** Property lists *)

Lemma assoc_define_eq {A} (k : string) (x : A) (l : list (string * A)) :
  assoc k (define k x l) = Some x.
Proof.
  induction l as [|[k' y] l IH]; simpl.
  - by rewrite String.eqb_refl.
  - destruct (String.eqb k' k) eqn:E; simpl; rewrite E; [done | exact IH].
Qed.

Lemma assoc_define_ne {A} (k k' : string) (x : A) (l : list (string * A)) :
  k ≠ k' → assoc k' (define k x l) = assoc k' l.
Proof.
  intros Hne. induction l as [|[k0 y] l IH]; simpl.
  - destruct (String.eqb k k') eqn:E; [|done].
    by apply String.eqb_eq in E.
  - destruct (String.eqb k0 k) eqn:E; simpl.
    + apply String.eqb_eq in E as ->.
      destruct (String.eqb k k') eqn:E'; [|done].
      by apply String.eqb_eq in E'.
    + by rewrite IH.
Qed.

Lemma assoc_Some_elem {A} (k : string) (x : A) (l : list (string * A)) :
  assoc k l = Some x → k ∈ l.*1.
Proof.
  induction l as [|[k' y] l IH]; simpl; [done|].
  destruct (String.eqb k' k) eqn:E.
  - apply String.eqb_eq in E as ->. intros _. apply list_elem_of_here.
  - intros H. apply list_elem_of_further. auto.
Qed.

Lemma assoc_None {A} (k : string) (l : list (string * A)) :
  assoc k l = None ↔ k ∉ l.*1.
Proof.
  induction l as [|[k' y] l IH]; simpl.
  - split; [intros _; apply not_elem_of_nil | done].
  - rewrite not_elem_of_cons. destruct (String.eqb k' k) eqn:E.
    + apply String.eqb_eq in E as ->. split; [done | intros [? _]; done].
    + apply String.eqb_neq in E. rewrite IH. intuition congruence.
Qed.

Lemma assoc_map_Data (name : string) (fields : list (string * any)) :
  assoc name (List.map (λ kv, (kv.1, Data kv.2)) fields) = Data <$> assoc name fields.
Proof.
  induction fields as [|[k v] l IH]; simpl; [done|].
  by destruct (String.eqb k name).
Qed.

(** ** The accessor pair *)

Lemma field_Some (name : string) (w : world) (c : cell) :
  field name w = Some c ↔ assoc name (own (this w)) = Some (Wrapped c).
Proof.
  unfold field. destruct (assoc name (own (this w))) as [[v|c']|]; naive_solver.
Qed.

Lemma read_wrapped (name : string) (w : world) (c : cell) :
  field name w = Some c → read name w = get name c w.
Proof. intros H%field_Some. unfold read. by rewrite H. Qed.

Lemma write_wrapped (name : string) (v : any) (w : world) (c : cell) :
  field name w = Some c → write name v w = after w (set name c v w).
Proof. intros H%field_Some. unfold write. by rewrite H. Qed.


Lemma set_throws (name : string) (c : cell) (v : any) (w : world) :
  completes (isSerializable v) = false → after w (set name c v w) = w.
Proof. unfold set. by destruct (isSerializable v) as [[|]|]. Qed.

Lemma set_completes (name : string) (c : cell) (v : any) (w : world) :
  completes (set name c v w) = completes (isSerializable v).
Proof. unfold set. by destruct (isSerializable v) as [[|]|]. Qed.

(** What [set] leaves in the instance when it returns: the new value in the
    cell, the [initialized] flag as it was. *)
Lemma set_this (name : string) (c : cell) (v : any) (w : world) :
  completes (isSerializable v) = true →
  this (after w (set name c v w)) =
  with_own (this w)
    (define name
       (Wrapped {| storageKey := storageKey c; value := v; initialized := initialized c |})
       (own (this w))).
Proof.
  unfold set.
  destruct (isSerializable v) as [[|]|]; [|done|done]. intros _. simpl.
  destruct (has_sql (this w)); [|done].
  destruct (JSON_stringify v); simpl; try done;
    by destruct (exec _ _) as [[?|] ?].
Qed.

Lemma field_set_eq (name : string) (c : cell) (v : any) (w : world) :
  completes (isSerializable v) = true →
  field name (after w (set name c v w)) =
  Some {| storageKey := storageKey c; value := v; initialized := initialized c |}.
Proof. intros Hv. apply field_Some. rewrite set_this by done. simpl. apply assoc_define_eq. Qed.

Lemma field_set_ne (name name' : string) (c : cell) (v : any) (w : world) :
  name ≠ name' → field name' (after w (set name c v w)) = field name' w.
Proof.
  intros Hne. destruct (completes (isSerializable v)) eqn:Hv.
  - unfold field. rewrite set_this by done. simpl. by rewrite assoc_define_ne.
  - by rewrite set_throws.
Qed.

(** A write leaves the property wrapped, with its key and its state; the
    cell takes the value unless the setter throws. *)
Lemma field_write (name : string) (c : cell) (v : any) (w : world) :
  field name w = Some c →
  field name (write name v w) =
  Some {| storageKey := storageKey c;
          value := if completes (isSerializable v) then v else value c;
          initialized := initialized c |}.
Proof.
  intros Hf. rewrite (write_wrapped _ _ _ _ Hf).
  destruct (completes (isSerializable v)) eqn:Hv.
  - by apply field_set_eq.
  - rewrite set_throws by done. rewrite Hf. by destruct c.
Qed.

(** [get] on an initialized cell answers from memory and changes nothing. *)
Lemma get_initialized (name : string) (c : cell) (w : world) :
  initialized c = true → get name c w = (value c, w).
Proof. intros H. unfold get. by rewrite H. Qed.

Lemma get_uninitialized (name : string) (c : cell) (w : world) :
  initialized c = false →
  get name c w =
  ((load name c w).1.1,
   {| this := with_own (this w)
        (define name
           (Wrapped {| storageKey := storageKey c; value := (load name c w).1.1;
                       initialized := true |})
           (own (this w)));
      store := (load name c w).1.2; console := (load name c w).2 |}).
Proof.
  intros H. unfold get, load. rewrite H.
  destruct (has_sql (this w)); [|done].
  destruct (exec _ _) as [[[|r l]|] db]; try done.
  by destruct (JSON_parse r).
Qed.

Lemma field_get_eq (name : string) (c : cell) (w : world) :
  field name w = Some c →
  field name (get name c w).2 =
  Some {| storageKey := storageKey c; value := (get name c w).1; initialized := true |}.
Proof.
  intros Hf. destruct (initialized c) eqn:E.
  - rewrite get_initialized by done. simpl. rewrite Hf. by destruct c; simplify_eq/=.
  - rewrite get_uninitialized by done. apply field_Some. simpl. apply assoc_define_eq.
Qed.

Lemma field_get_ne (name name' : string) (c : cell) (w : world) :
  name ≠ name' → field name' (get name c w).2 = field name' w.
Proof.
  intros Hne. destruct (initialized c) eqn:E.
  - by rewrite get_initialized.
  - rewrite get_uninitialized by done. unfold field. simpl. by rewrite assoc_define_ne.
Qed.

(** ** What a step of the instance's life keeps *)

Lemma get_frame (name : string) (c : cell) (w : world) :
  prototypes (this (get name c w).2) = prototypes (this w) ∧
  DURABLE_OBJECT_STATE (this (get name c w).2) = DURABLE_OBJECT_STATE (this w) ∧
  ORIGINAL_PROPERTIES (this (get name c w).2) = ORIGINAL_PROPERTIES (this w).
Proof.
  destruct (initialized c) eqn:E.
  - by rewrite get_initialized.
  - by rewrite get_uninitialized.
Qed.

Lemma set_frame (name : string) (c : cell) (v : any) (w : world) :
  prototypes (this (after w (set name c v w))) = prototypes (this w) ∧
  DURABLE_OBJECT_STATE (this (after w (set name c v w))) = DURABLE_OBJECT_STATE (this w) ∧
  ORIGINAL_PROPERTIES (this (after w (set name c v w))) = ORIGINAL_PROPERTIES (this w).
Proof.
  destruct (completes (isSerializable v)) eqn:Hv.
  - by rewrite set_this.
  - by rewrite set_throws.
Qed.

Lemma step_frame (w : world) (o : op) :
  prototypes (this (step w o)) = prototypes (this w) ∧
  DURABLE_OBJECT_STATE (this (step w o)) = DURABLE_OBJECT_STATE (this w) ∧
  ORIGINAL_PROPERTIES (this (step w o)) = ORIGINAL_PROPERTIES (this w).
Proof.
  destruct o as [name|name v]; simpl.
  - unfold read. destruct (assoc name (own (this w))) as [[x|c]|]; try done.
    apply get_frame.
  - unfold write. destruct (assoc name (own (this w))) as [[x|c]|]; try done.
    apply set_frame.
Qed.

(** A step never wraps or unwraps a property, and never changes a storage
    key. *)
Lemma step_field (w : world) (o : op) (name : string) :
  storageKey <$> field name (step w o) = storageKey <$> field name w.
Proof.
  destruct o as [n|n v]; simpl.
  - unfold read. destruct (assoc n (own (this w))) as [[x|c]|] eqn:E; try done.
    destruct (decide (n = name)) as [->|Hne].
    + assert (Hf : field name w = Some c) by by apply field_Some.
      rewrite (field_get_eq _ _ _ Hf). by rewrite Hf.
    + by rewrite field_get_ne.
  - unfold write. destruct (assoc n (own (this w))) as [[x|c]|] eqn:E.
    + unfold field; simpl. destruct (decide (n = name)) as [->|Hne].
      * by rewrite assoc_define_eq, E.
      * by rewrite assoc_define_ne.
    + destruct (decide (n = name)) as [->|Hne].
      * assert (Hf : field name w = Some c) by by apply field_Some.
        rewrite <- (write_wrapped _ _ _ _ Hf). by rewrite (field_write _ _ _ _ Hf), Hf.
      * by rewrite field_set_ne.
    + unfold field; simpl. destruct (decide (n = name)) as [->|Hne].
      * by rewrite assoc_define_eq, E.
      * by rewrite assoc_define_ne.
Qed.

Lemma run_frame (ops : list op) (w : world) :
  prototypes (this (run ops w)) = prototypes (this w) ∧
  DURABLE_OBJECT_STATE (this (run ops w)) = DURABLE_OBJECT_STATE (this w) ∧
  ORIGINAL_PROPERTIES (this (run ops w)) = ORIGINAL_PROPERTIES (this w).
Proof.
  revert w. induction ops as [|o ops IH]; intros w; [done|].
  simpl. destruct (IH (step w o)) as (-> & -> & ->). apply step_frame.
Qed.

Lemma run_field (ops : list op) (w : world) (name : string) :
  storageKey <$> field name (run ops w) = storageKey <$> field name w.
Proof.
  revert w. induction ops as [|o ops IH]; intros w; [done|].
  simpl. rewrite IH. apply step_field.
Qed.

(** ** Field discovery *)

Lemma elem_of_add (x y : string) (s : list string) :
  x ∈ add y s ↔ x = y ∨ x ∈ s.
Proof.
  unfold add. case_bool_decide as H.
  - naive_solver.
  - rewrite elem_of_app, list_elem_of_singleton. naive_solver.
Qed.

Lemma NoDup_add (y : string) (s : list string) : NoDup s → NoDup (add y s).
Proof.
  intros Hs. unfold add. case_bool_decide as H; [done|].
  apply NoDup_app. split_and!; [done | | apply NoDup_singleton].
  intros x Hx ->%list_elem_of_singleton. done.
Qed.

(** Collecting the names of one object into the set: the names that pass
    [keep] are added, nothing else is. *)
Lemma elem_of_collect (keep : string → bool) (names s : list string) (x : string) :
  x ∈ fold_left (λ s prop, if keep prop then add prop s else s) names s ↔
  x ∈ s ∨ (x ∈ names ∧ keep x = true).
Proof.
  revert s. induction names as [|n names IH]; intros s; simpl.
  - rewrite elem_of_nil. naive_solver.
  - rewrite IH, elem_of_cons. destruct (keep n) eqn:E.
    + rewrite elem_of_add. split.
      * intros [[->|?]|[? ?]]; auto.
      * intros [?|[[->|?] ?]]; auto.
    + split.
      * intros [?|[? ?]]; auto.
      * intros [?|[[->|?] ?]]; [auto | congruence | auto].
Qed.

Lemma NoDup_collect (keep : string → bool) (names s : list string) :
  NoDup s → NoDup (fold_left (λ s prop, if keep prop then add prop s else s) names s).
Proof.
  revert s. induction names as [|n names IH]; intros s Hs; simpl; [done|].
  apply IH. destruct (keep n); [by apply NoDup_add | done].
Qed.

(** The chain walk only adds names: admissible names of a prototype whose
    value, seen from that prototype, is not callable. *)
Lemma walk_elem (constructor : fid) (protos : list (list (string * any)))
    (s out : list string) (x : string) :
  walk constructor protos s = Some out →
  x ∈ out →
  x ∈ s ∨
  ∃ k proto rest, drop k protos = proto :: rest ∧ x ∈ proto.*1 ∧
    admissible x = true ∧ callable (chain_member (proto :: rest) x) = false.
Proof.
  revert s. induction protos as [|proto rest IH]; intros s; simpl.
  - intros [= ->]. auto.
  - destruct (is_function Object_fn _); [intros [= ->]; auto|].
    set (s' := fold_left _ _ s).
    assert (Hs' : x ∈ s' →
      x ∈ s ∨ (x ∈ proto.*1 ∧ admissible x = true ∧
               callable (chain_member (proto :: rest) x) = false)).
    { unfold s'. rewrite (elem_of_collect
        (λ p, admissible p && negb (callable (chain_member (proto :: rest) p)))).
      intros [?|[? [? ?%negb_true_iff]%andb_true_iff]]; auto. }
    assert (Hhere : x ∈ s' → x ∈ s ∨
      ∃ k proto0 rest0, drop k (proto :: rest) = proto0 :: rest0 ∧ x ∈ proto0.*1 ∧
        admissible x = true ∧ callable (chain_member (proto0 :: rest0) x) = false).
    { intros [?|?]%Hs'; [auto|]. right. by exists 0, proto, rest. }
    destruct rest as [|proto' rest']; [done|].
    destruct (is_function constructor _).
    + intros [= <-]. exact Hhere.
    + intros Hw Hx. destruct (IH _ Hw Hx) as [?|(k & p0 & r0 & Hk & ?)]; [auto|].
      right. by exists (S k), p0, r0.
Qed.

Lemma walk_admissible (constructor : fid) (protos : list (list (string * any)))
    (s out : list string) :
  walk constructor protos s = Some out →
  Forall (λ x, admissible x = true) s → Forall (λ x, admissible x = true) out.
Proof.
  intros Hw Hs. apply Forall_forall. intros x Hx.
  destruct (walk_elem _ _ _ _ _ Hw Hx) as [?|(? & ? & ? & ? & ? & ? & ?)]; [|done].
  by eapply Forall_forall in Hs.
Qed.

Lemma walk_NoDup (constructor : fid) (protos : list (list (string * any)))
    (s out : list string) :
  walk constructor protos s = Some out → NoDup s → NoDup out.
Proof.
  revert s. induction protos as [|proto rest IH]; intros s; simpl.
  - by intros [= ->].
  - destruct (is_function Object_fn _); [by intros [= ->]|].
    intros Hw Hs.
    pose proof (NoDup_collect
      (λ p, admissible p && negb (callable (chain_member (proto :: rest) p)))
      proto.*1 s Hs) as Hs'.
    destruct rest as [|proto' rest']; [done|].
    destruct (is_function constructor _); [by injection Hw as <-|].
    by eapply IH.
Qed.

(** Own names come first and stay: the walk keeps what was collected. *)
Lemma walk_keeps (constructor : fid) (protos : list (list (string * any)))
    (s out : list string) (x : string) :
  walk constructor protos s = Some out → x ∈ s → x ∈ out.
Proof.
  revert s. induction protos as [|proto rest IH]; intros s; simpl.
  - by intros [= ->].
  - destruct (is_function Object_fn _); [by intros [= ->]|].
    intros Hw Hx.
    assert (Hx' : x ∈ fold_left
      (λ s prop, if admissible prop && negb (callable (chain_member (proto :: rest) prop))
                 then add prop s else s) proto.*1 s).
    { apply (elem_of_collect
        (λ p, admissible p && negb (callable (chain_member (proto :: rest) p)))). auto. }
    destruct rest as [|proto' rest']; [done|].
    destruct (is_function constructor _); [by injection Hw as <-|].
    by eapply IH.
Qed.

Lemma discovered_NoDup (constructor : fid) (o : object) (names : list string) :
  getSerializableProperties constructor o = Some names → NoDup names.
Proof.
  intros H. eapply walk_NoDup; [exact H|].
  apply (NoDup_collect admissible). apply NoDup_nil_2.
Qed.

Lemma discovered_admissible (constructor : fid) (o : object) (names : list string) (x : string) :
  getSerializableProperties constructor o = Some names → x ∈ names → admissible x = true.
Proof.
  intros H Hx.
  assert (Hall : Forall (λ x, admissible x = true) names).
  { eapply walk_admissible; [exact H|]. apply Forall_forall. intros y Hy.
    apply (elem_of_collect admissible) in Hy as [Hy|[_ ?]]; [|done].
    by apply elem_of_nil in Hy. }
  by eapply Forall_forall in Hall.
Qed.

(** ** Attachment

    The loop of [setupPropertyPersistence] is followed with the invariant
    [setup_inv]. *)
Section attachment.
Variable options : PersistableOptions.
Variable fields : list (string * any).
Variable protos : list (list (string * any)).

Local Abbreviation wrapped_after := (wrapped_after options fields protos).
Local Abbreviation setup_inv := (setup_inv options fields protos).

Lemma wrapped_after_skip (seen : list string) (name n : string) :
  eligible options fields protos name = false →
  wrapped_after (seen ++ [name]) n = wrapped_after seen n.
Proof.
  intros He. unfold wrapped_after.
  destruct (decide (n = name)) as [->|Hne].
  - by rewrite He, !andb_false_r.
  - f_equal. apply bool_decide_ext. rewrite elem_of_app, list_elem_of_singleton.
    naive_solver.
Qed.

Lemma wrapped_after_other (seen : list string) (name n : string) :
  n ≠ name → wrapped_after (seen ++ [name]) n = wrapped_after seen n.
Proof.
  intros Hne. unfold wrapped_after. f_equal. apply bool_decide_ext.
  rewrite elem_of_app, list_elem_of_singleton. naive_solver.
Qed.

Lemma wrapped_after_here (seen : list string) (name : string) :
  wrapped_after (seen ++ [name]) name = eligible options fields protos name.
Proof.
  unfold wrapped_after. rewrite bool_decide_eq_true_2; [done|].
  apply elem_of_app. right. by apply list_elem_of_singleton.
Qed.

Lemma setup_read (seen : list string) (w0 w : world) (name : string) :
  name ∉ seen → setup_inv seen w0 w →
  read name w = (initial fields protos name, w).
Proof.
  intros Hnew (_ & _ & Hpr & _ & Hown & _).
  unfold read, initial. rewrite Hown. unfold wrapped_after.
  rewrite bool_decide_eq_false_2 by done. simpl.
  destruct (assoc name fields); simpl; [done|]. by rewrite Hpr.
Qed.

Lemma setup_inv_skip (seen : list string) (w0 w : world) (name : string) :
  eligible options fields protos name = false →
  setup_inv seen w0 w → setup_inv (seen ++ [name]) w0 w.
Proof.
  intros He (? & ? & ? & ? & Hown & Horig). split_and!; try done.
  - intros n. by rewrite wrapped_after_skip.
  - intros n. by rewrite wrapped_after_skip.
Qed.

Lemma setup_one_inv (seen : list string) (w0 w : world) (name : string) :
  name ∉ seen → setup_inv seen w0 w →
  setup_inv (seen ++ [name]) w0 (setup_one options w name).
Proof.
  intros Hnew Hinv. pose proof (setup_read _ _ _ _ Hnew Hinv) as Hread.
  unfold setup_one.
  destruct (includes (default [] (exclude options)) name) eqn:E1.
  { apply setup_inv_skip; [|done]. unfold eligible. by rewrite E1. }
  destruct (match include options with
            | Some l => negb (includes l name) | None => false end) eqn:E2.
  { apply setup_inv_skip; [|done]. unfold eligible. rewrite E1.
    destruct (include options); [|done]. apply negb_true_iff in E2. by rewrite E2. }
  rewrite Hread.
  destruct (callable (initial fields protos name)) eqn:E3.
  { apply setup_inv_skip; [|done]. unfold eligible. by rewrite E3, andb_false_r. }
  assert (He : eligible options fields protos name = true).
  { unfold eligible. rewrite E1, E3. destruct (include options); [|done].
    apply negb_false_iff in E2. by rewrite E2. }
  unfold makePropertyPersistent. rewrite Hread.
  destruct Hinv as (Hst & Hco & Hpr & Hdu & Hown & Horig).
  assert (Hread' : ∀ m, read name
    {| this := {| own := own (this w); prototypes := prototypes (this w);
                  DURABLE_OBJECT_STATE := DURABLE_OBJECT_STATE (this w);
                  ORIGINAL_PROPERTIES := m |};
       store := store w; console := console w |} =
    (initial fields protos name,
     {| this := {| own := own (this w); prototypes := prototypes (this w);
                   DURABLE_OBJECT_STATE := DURABLE_OBJECT_STATE (this w);
                   ORIGINAL_PROPERTIES := m |};
        store := store w; console := console w |})).
  { intros m. unfold read, initial. simpl. rewrite Hown. unfold wrapped_after.
    rewrite bool_decide_eq_false_2 by done. simpl.
    destruct (assoc name fields); simpl; [done|]. by rewrite Hpr. }
  rewrite Hread'. split_and!; simpl; try done.
  - intros n. destruct (decide (n = name)) as [->|Hne].
    + by rewrite wrapped_after_here, He, assoc_define_eq.
    + rewrite wrapped_after_other by done. rewrite assoc_define_ne by done. apply Hown.
  - intros n. destruct (decide (n = name)) as [->|Hne].
    + by rewrite wrapped_after_here, He, lookup_insert_eq.
    + rewrite wrapped_after_other by done. rewrite lookup_insert_ne by done. apply Horig.
Qed.

Lemma setup_loop_inv (names seen : list string) (w0 w : world) :
  NoDup names → (∀ x, x ∈ names → x ∉ seen) →
  setup_inv seen w0 w →
  setup_inv (seen ++ names) w0 (fold_left (setup_one options) names w).
Proof.
  revert seen w. induction names as [|n names IH]; intros seen w Hnd Hdis Hinv; simpl.
  - by rewrite app_nil_r.
  - apply NoDup_cons in Hnd as [Hn Hnd].
    replace (seen ++ n :: names) with ((seen ++ [n]) ++ names)
      by by rewrite <- app_assoc.
    apply IH; [done| |].
    + intros x Hx [Hs| ->%list_elem_of_singleton]%elem_of_app; [|done].
      eapply Hdis; [|exact Hs]. by apply list_elem_of_further.
    + apply setup_one_inv; [|done]. apply Hdis, list_elem_of_here.
Qed.

Lemma setup_inv_start (w : world) :
  this w = blank fields protos (DURABLE_OBJECT_STATE (this w)) →
  setup_inv [] w w.
Proof.
  intros Hw. split_and!; try done.
  - by rewrite Hw.
  - intros n. rewrite Hw. simpl. apply assoc_map_Data.
  - intros n. rewrite Hw. simpl. apply lookup_empty.
Qed.
End attachment.

(** ** The freshly constructed instance *)

Lemma initializeStorage_this (w : world) : this (initializeStorage w) = this w.
Proof.
  unfold initializeStorage. destruct (has_sql (this w)); [|done].
  by destruct (exec _ _) as [[?|] ?].
Qed.

(** Construction with a state argument succeeds exactly when discovery does,
    and then ends the setup loop over the discovered names. *)
Lemma new_State (options : PersistableOptions) (constructor : fid) (b : bool)
    (fields : list (string * any)) (protos : list (list (string * any)))
    (db : sql) (log : list (level * string)) (w : world) :
  new options constructor (State b) fields protos db log = Some w ↔
  ∃ names,
    getSerializableProperties constructor (blank fields protos (Some b)) = Some names ∧
    w = fold_left (setup_one options) names
          (initializeStorage
             {| this := blank fields protos (Some b); store := db; console := log |}).
Proof.
  unfold new, setupPropertyPersistence. fold (blank fields protos (Some b)).
  rewrite initializeStorage_this. simpl.
  destruct (getSerializableProperties _ _) as [names|]; simpl.
  - split; [intros [= <-]; eauto | intros (? & [= <-] & ->); done].
  - split; [done | intros (? & ? & _); done].
Qed.

Lemma new_inv (options : PersistableOptions) (constructor : fid) (b : bool)
    (fields : list (string * any)) (protos : list (list (string * any)))
    (db : sql) (log : list (level * string)) (w : world) :
  new options constructor (State b) fields protos db log = Some w →
  ∃ names,
    getSerializableProperties constructor (blank fields protos (Some b)) = Some names ∧
    setup_inv options fields protos names
      (initializeStorage
         {| this := blank fields protos (Some b); store := db; console := log |}) w.
Proof.
  intros (names & Hnames & ->)%new_State. exists names. split; [done|].
  apply (setup_loop_inv options fields protos names []).
  - by eapply discovered_NoDup.
  - intros x _. apply not_elem_of_nil.
  - apply setup_inv_start. by rewrite initializeStorage_this.
Qed.

(** Discovery looks at names, prototypes and callability only: not at the
    state argument. *)
Lemma discovery_state (constructor : fid) (fields : list (string * any))
    (protos : list (list (string * any))) (s s' : option bool) :
  getSerializableProperties constructor (blank fields protos s) =
  getSerializableProperties constructor (blank fields protos s').
Proof. done. Qed.

(** The wrapped properties of a fresh instance. *)
Lemma new_field (options : PersistableOptions) (constructor : fid) (b : bool)
    (fields : list (string * any)) (protos : list (list (string * any)))
    (db : sql) (log : list (level * string)) (w : world) (names : list string)
    (name : string) :
  new options constructor (State b) fields protos db log = Some w →
  getSerializableProperties constructor (blank fields protos None) = Some names →
  field name w =
  if bool_decide (name ∈ names) && eligible options fields protos name
  then Some (fresh_cell options fields protos name)
  else None.
Proof.
  intros (names' & Hn' & Hinv)%new_inv Hn.
  rewrite (discovery_state _ _ _ _ None), Hn in Hn'. injection Hn' as <-.
  destruct Hinv as (_ & _ & _ & _ & Hown & _).
  unfold field. rewrite Hown. unfold wrapped_after.
  destruct (_ && _); [done|]. by destruct (assoc name fields).
Qed.

Lemma new_original (options : PersistableOptions) (constructor : fid) (b : bool)
    (fields : list (string * any)) (protos : list (list (string * any)))
    (db : sql) (log : list (level * string)) (w : world) (name : string) (c : cell) :
  new options constructor (State b) fields protos db log = Some w →
  field name w = Some c →
  c = fresh_cell options fields protos name ∧
  original (this w) name = initial fields protos name.
Proof.
  intros (names & Hn & Hinv)%new_inv Hf.
  destruct Hinv as (_ & _ & _ & _ & Hown & Horig).
  apply field_Some in Hf. rewrite Hown in Hf.
  unfold original. rewrite Horig.
  destruct (wrapped_after _ _ _ _ _).
  - by injection Hf as <-.
  - by destruct (assoc name fields).
Qed.

Lemma new_has_sql (options : PersistableOptions) (constructor : fid) (b : bool)
    (fields : list (string * any)) (protos : list (list (string * any)))
    (db : sql) (log : list (level * string)) (w : world) :
  new options constructor (State b) fields protos db log = Some w →
  has_sql (this w) = b.
Proof.
  intros (names & Hn & Hinv)%new_inv.
  destruct Hinv as (_ & _ & _ & Hd & _).
  unfold has_sql. rewrite Hd, initializeStorage_this. done.
Qed.

Lemma new_store (options : PersistableOptions) (constructor : fid) (b : bool)
    (fields : list (string * any)) (protos : list (list (string * any)))
    (db : sql) (log : list (level * string)) (w : world) :
  new options constructor (State b) fields protos db log = Some w →
  store w = store (initializeStorage
    {| this := blank fields protos (Some b); store := db; console := log |}) ∧
  console w = console (initializeStorage
    {| this := blank fields protos (Some b); store := db; console := log |}).
Proof.
  intros (names & Hn & Hinv)%new_inv.
  by destruct Hinv as (? & ? & _).
Qed.


(** ** Computing on the concrete object *)

(** Construction of the concrete object succeeds as soon as it returns
    something: what it returns is then [Demo.instance]. *)
Lemma attach_instance (options : PersistableOptions) (arg0 : argument) (db : sql) :
  (if Demo.attach options arg0 db is Some _ then True else False) →
  Demo.attach options arg0 db = Some (Demo.instance options arg0 db).
Proof. unfold Demo.instance. by destruct (Demo.attach options arg0 db). Qed.

(** Closed goals about the concrete object are settled by evaluation. *)
Ltac by_computation :=
  lazymatch goal with
  | |- _ = Some (Demo.instance ?o ?a ?db) => exact (attach_instance o a db I)
  | |- _ ≠ _ => vm_compute; discriminate
  | |- _ => vm_compute; reflexivity
  end.

(** ** The state machine of a wrapped property *)

(** The [initialized] flag after one step: a read of the property itself
    sets it, nothing else touches it. *)
Lemma step_initialized (w : world) (o : op) (name : string) :
  initialized <$> field name (step w o) =
  match o with
  | Read n =>
      if bool_decide (n = name) then (λ _, true) <$> field name w
      else initialized <$> field name w
  | Write _ _ => initialized <$> field name w
  end.
Proof.
  destruct o as [n|n v]; simpl.
  - case_bool_decide as Hn.
    + subst n. unfold read. destruct (field name w) as [c|] eqn:Hf.
      * apply field_Some in Hf as Ha. rewrite Ha.
        by rewrite (field_get_eq _ _ _ Hf).
      * unfold field in Hf |- *.
        by destruct (assoc name (own (this w))) as [[x|c]|] eqn:E; simplify_eq/=; rewrite E.
    + unfold read. destruct (assoc n (own (this w))) as [[x|c]|] eqn:E; try done.
      by rewrite field_get_ne.
  - unfold write. destruct (assoc n (own (this w))) as [[x|c]|] eqn:E.
    + unfold field; simpl. destruct (decide (n = name)) as [->|Hne].
      * by rewrite assoc_define_eq, E.
      * by rewrite assoc_define_ne.
    + destruct (decide (n = name)) as [->|Hne].
      * assert (Hf : field name w = Some c) by by apply field_Some.
        rewrite <- (write_wrapped _ _ _ _ Hf). by rewrite (field_write _ _ _ _ Hf), Hf.
      * by rewrite field_set_ne.
    + unfold field; simpl. destruct (decide (n = name)) as [->|Hne].
      * by rewrite assoc_define_eq, E.
      * by rewrite assoc_define_ne.
Qed.

Lemma step_loaded (w : world) (o : op) (name : string) :
  initialized <$> field name w = Some true →
  initialized <$> field name (step w o) = Some true.
Proof.
  intros H. rewrite step_initialized. destruct o as [n|n v]; [|done].
  case_bool_decide; [|done]. by destruct (field name w).
Qed.

Lemma run_loaded (ops : list op) (w : world) (name : string) :
  initialized <$> field name w = Some true →
  initialized <$> field name (run ops w) = Some true.
Proof.
  revert w. induction ops as [|o ops IH]; intros w H; [done|].
  simpl. by apply IH, step_loaded.
Qed.





(** ** The first read *)

(** A lookup is one statement in the journal and changes no row. *)
Lemma exec_Select (key : string) (db : sql) :
  journal (exec (Select key) db).2 = journal db ++ [Select key] ∧
  table (exec (Select key) db).2 = table db ∧
  faults (exec (Select key) db).2 = tail (faults db) ∧
  (exec (Select key) db).1 =
    if default false (head (faults db)) then None
    else (λ t : gmap string text, option_list (t !! key)) <$> table db.
Proof.
  unfold exec. destruct (default false (head (faults db))); [done|].
  by destruct (table db).
Qed.

Lemma load_store (name : string) (c : cell) (w : world) :
  has_sql (this w) = true →
  (load name c w).1.2 = (exec (Select (storageKey c)) (store w)).2.
Proof.
  intros Hsql. unfold load. rewrite Hsql.
  destruct (exec _ _) as [[[|r l]|] db]; try done.
  by destruct (JSON_parse r).
Qed.

(** The three ways a lookup can end, read off the store. *)
Lemma load_row (name : string) (c : cell) (w : world) (t : gmap string text)
    (row : text) (v : any) :
  has_sql (this w) = true →
  head (faults (store w)) ≠ Some true →
  table (store w) = Some t → t !! storageKey c = Some row → JSON_parse row = Some v →
  (load name c w).1.1 = v ∧ (load name c w).2 = console w.
Proof.
  intros Hsql Hf Ht Hrow Hv. unfold load, exec. rewrite Hsql, Ht.
  destruct (head (faults (store w))) as [[|]|]; try done; simpl;
    by rewrite Hrow; simpl; rewrite Hv.
Qed.

Lemma load_miss (name : string) (c : cell) (w : world) (t : gmap string text) :
  has_sql (this w) = true →
  head (faults (store w)) ≠ Some true →
  table (store w) = Some t → t !! storageKey c = None →
  (load name c w).1.1 = original (this w) name ∧ (load name c w).2 = console w.
Proof.
  intros Hsql Hf Ht Hrow. unfold load, exec. rewrite Hsql, Ht.
  destruct (head (faults (store w))) as [[|]|]; try done; simpl; by rewrite Hrow.
Qed.

Lemma load_failure (name : string) (c : cell) (w : world) :
  has_sql (this w) = true →
  head (faults (store w)) = Some true ∨ table (store w) = None ∨
    (∃ t row, table (store w) = Some t ∧ t !! storageKey c = Some row ∧
              JSON_parse row = None) →
  (load name c w).1.1 = original (this w) name ∧
  (load name c w).2 =
    console w ++ [(warn, "Failed to load persisted property " +:+ name +:+ ":")].
Proof.
  intros Hsql Hcase. unfold load, exec. rewrite Hsql.
  destruct (head (faults (store w))) as [[|]|] eqn:Hf; simpl; try done.
  - destruct Hcase as [?|[Ht|(t & row & Ht & Hrow & Hp)]]; [done| |].
    + by rewrite Ht.
    + rewrite Ht, Hrow. simpl. by rewrite Hp.
  - destruct Hcase as [?|[Ht|(t & row & Ht & Hrow & Hp)]]; [done| |].
    + by rewrite Ht.
    + rewrite Ht, Hrow. simpl. by rewrite Hp.
Qed.

(** What a lookup that does not throw settles on. *)
Lemma load_hydrated (name : string) (c : cell) (w : world) (t : gmap string text) :
  has_sql (this w) = true →
  head (faults (store w)) ≠ Some true → table (store w) = Some t →
  (load name c w).1.1 = hydrated t (storageKey c) (original (this w) name).
Proof.
  intros Hsql Hf Ht. unfold hydrated.
  destruct (t !! storageKey c) as [row|] eqn:Hrow.
  - destruct (JSON_parse row) as [v|] eqn:Hv; simpl.
    + by eapply load_row.
    + apply load_failure; [done|]. right; right. eauto.
  - by eapply load_miss.
Qed.

(** After any further operations, a property that has been read answers from
    its cell and leaves the whole world as it is. *)
Lemma read_loaded (name : string) (c : cell) (w : world) :
  field name w = Some c → initialized c = true → read name w = (value c, w).
Proof. intros Hf Hi. rewrite (read_wrapped _ _ _ Hf). by apply get_initialized. Qed.

Lemma run_has_sql (ops : list op) (w : world) :
  has_sql (this (run ops w)) = has_sql (this w).
Proof. unfold has_sql. by destruct (run_frame ops w) as (_ & -> & _). Qed.

Lemma run_original (ops : list op) (w : world) (name : string) :
  original (this (run ops w)) name = original (this w) name.
Proof. unfold original. by destruct (run_frame ops w) as (_ & _ & ->). Qed.

(** In the life of an instance a wrapped property was wrapped at
    construction, and keeps its storage key and its recorded original. *)
Lemma live_field (options : PersistableOptions) (constructor : fid) (b : bool)
    (fields : list (string * any)) (protos : list (list (string * any)))
    (db : sql) (log : list (level * string)) (w0 : world) (ops : list op)
    (name : string) (c : cell) :
  new options constructor (State b) fields protos db log = Some w0 →
  field name (run ops w0) = Some c →
  field name w0 = Some (fresh_cell options fields protos name) ∧
  storageKey c = default "" (prefix options) +:+ name ∧
  original (this (run ops w0)) name = initial fields protos name ∧
  has_sql (this (run ops w0)) = b.
Proof.
  intros Hnew Hf.
  pose proof (run_field ops w0 name) as Hk. rewrite Hf in Hk. simpl in Hk.
  destruct (field name w0) as [c0|] eqn:Hf0; [|done].
  destruct (new_original _ _ _ _ _ _ _ _ _ _ Hnew Hf0) as [-> Horig].
  split_and!; [done | by injection Hk | by rewrite run_original | ].
  rewrite run_has_sql. by eapply new_has_sql.
Qed.

(** C4, as the code has it.  A wrapped property that is still Uninitialized
    is read.  On an instance whose storage has an SQL handle the read issues
    exactly one statement, the lookup by the property's storage key ([prefix]
    followed by the name), and changes no row.  Then: a row that parses is
    adopted; a missing row makes the cell adopt the value the property had
    when it was wrapped; a lookup that throws (the store fails or the table
    is missing) or a row that does not parse is logged as a warning and the
    cell adopts that wrap-time value as well.  On an instance whose storage
    has no SQL handle the read issues no statement, logs nothing and keeps
    the value the cell holds.  In every case the property is Loaded
    afterwards and the read returns the cell's value; from then on, whatever
    operations come between, a read of the property returns the cell's value
    and leaves store, console and instance untouched. *)
Theorem first_read (options : PersistableOptions) (constructor : fid) (b : bool)
    (fields : list (string * any)) (protos : list (list (string * any)))
    (db : sql) (log : list (level * string)) (w0 : world) (ops : list op)
    (name : string) (c : cell) :
  new options constructor (State b) fields protos db log = Some w0 →
  field name (run ops w0) = Some c →
  initialized c = false →
  storageKey c = default "" (prefix options) +:+ name ∧
  (b = true →
     journal (store (read name (run ops w0)).2) =
       journal (store (run ops w0)) ++ [Select (storageKey c)] ∧
     table (store (read name (run ops w0)).2) = table (store (run ops w0)) ∧
     (∀ t row v,
        head (faults (store (run ops w0))) ≠ Some true →
        table (store (run ops w0)) = Some t →
        t !! storageKey c = Some row → JSON_parse row = Some v →
        (read name (run ops w0)).1 = v ∧
        console (read name (run ops w0)).2 = console (run ops w0)) ∧
     (∀ t,
        head (faults (store (run ops w0))) ≠ Some true →
        table (store (run ops w0)) = Some t →
        t !! storageKey c = None →
        (read name (run ops w0)).1 = initial fields protos name ∧
        console (read name (run ops w0)).2 = console (run ops w0)) ∧
     (head (faults (store (run ops w0))) = Some true ∨
      table (store (run ops w0)) = None ∨
      (∃ t row, table (store (run ops w0)) = Some t ∧
                t !! storageKey c = Some row ∧ JSON_parse row = None) →
        (read name (run ops w0)).1 = initial fields protos name ∧
        console (read name (run ops w0)).2 =
          console (run ops w0) ++
          [(warn, "Failed to load persisted property " +:+ name +:+ ":")])) ∧
  (b = false →
     (read name (run ops w0)).1 = value c ∧
     store (read name (run ops w0)).2 = store (run ops w0) ∧
     console (read name (run ops w0)).2 = console (run ops w0)) ∧
  field name (read name (run ops w0)).2 =
    Some {| storageKey := storageKey c; value := (read name (run ops w0)).1;
            initialized := true |} ∧
  (∀ ops' c',
     field name (run ops' (read name (run ops w0)).2) = Some c' →
     read name (run ops' (read name (run ops w0)).2) =
       (value c', run ops' (read name (run ops w0)).2)).
Proof.
  intros Hnew Hf Hi.
  destruct (live_field _ _ _ _ _ _ _ _ _ _ _ Hnew Hf) as (_ & Hkey & Horig & Hsql).
  set (w := run ops w0) in *.
  pose proof (field_get_eq _ _ _ Hf) as Hafter.
  rewrite (read_wrapped _ _ _ Hf). rewrite (get_uninitialized _ _ _ Hi) in *.
  simpl in *.
  destruct (exec_Select (storageKey c) (store w)) as (Hj & Ht & _ & _).
  split_and!; try done.
  - intros ->. split_and!.
    + by rewrite load_store.
    + by rewrite load_store.
    + intros t row v ? ? ? ?. by eapply load_row.
    + intros t ? ? ?. rewrite <- Horig. by eapply load_miss.
    + intros Hcase. rewrite <- Horig. by apply load_failure.
  - intros ->. unfold load. by rewrite Hsql.
  - intros ops' c' Hf'. apply read_loaded; [done|].
    pose proof (run_loaded ops' _ name (f_equal (fmap initialized) Hafter)) as Hl.
    rewrite Hf' in Hl. by injection Hl.
Qed.

Lemma first_read_witness :
  journal (store (read "counter"
     (run [] (Demo.instance Demo.defaults (State true) (Demo.used [])))).2) =
    journal (store (run [] (Demo.instance Demo.defaults (State true) (Demo.used [])))) ++
    [Select (storageKey
       {| storageKey := "counter"; value := VNumber 0; initialized := false |})] ∧
  (read "counter"
     (run [] (Demo.instance Demo.defaults (State true) (Demo.used [])))).1 = VNumber 5.
Proof.
  pose proof (first_read Demo.defaults Demo.MyDurableObject true Demo.fields Demo.protos
                (Demo.used []) []
                (Demo.instance Demo.defaults (State true) (Demo.used [])) [] "counter"
                {| storageKey := "counter"; value := VNumber 0; initialized := false |}
                ltac:(by_computation) ltac:(by_computation)
                ltac:(by_computation)) as (_ & Hsql & _).
  pose proof (Hsql eq_refl) as (Hj & _ & Hrow & _).
  split; [exact Hj|].
  exact (proj1 (Hrow {[ "counter" := Document (JNumber 5) ]} (Document (JNumber 5))
                  (VNumber 5) ltac:(by_computation) ltac:(by_computation)
                  ltac:(by_computation) ltac:(by_computation))).
Defined.

(** C4 fails as stated.  The constructor wraps the properties of any object
    whose first argument has a [storage] member; the accessors look for
    [storage.sql] on their own.  On such an instance without an SQL handle the
    first read of [counter] issues no lookup at all, and it does not adopt the
    wrap-time value 0 either: the cell keeps the 7 assigned before. *)
Lemma first_read_counterexample :
  ∃ w c,
    Demo.attach Demo.defaults (State false) (Demo.used []) = Some w ∧
    field "counter" (write "counter" (VNumber 7) w) = Some c ∧
    initialized c = false ∧
    journal (store (read "counter" (write "counter" (VNumber 7) w)).2) =
      journal (store (write "counter" (VNumber 7) w)) ∧
    journal (store (read "counter" (write "counter" (VNumber 7) w)).2) = [] ∧
    (read "counter" (write "counter" (VNumber 7) w)).1 = VNumber 7 ∧
    initial Demo.fields Demo.protos "counter" = VNumber 0 ∧
    initialized <$> field "counter" (read "counter" (write "counter" (VNumber 7) w)).2 =
      Some true.
Proof.
  exists (Demo.instance Demo.defaults (State false) (Demo.used [])),
    {| storageKey := "counter"; value := VNumber 7; initialized := false |}.
  split_and!; by_computation.
Qed.

(** ** Write, then read *)








(** ** The round trip through JSON *)








(** ** The upsert of a write *)



Lemma exec_CreateTable (db : sql) :
  journal (exec CreateTable db).2 = journal db ++ [CreateTable] ∧
  faults (exec CreateTable db).2 = tail (faults db) ∧
  (is_Some (table db) → table (exec CreateTable db).2 = table db) ∧
  ((exec CreateTable db).1 = None ↔ head (faults db) = Some true).
Proof.
  unfold exec. destruct (head (faults db)) as [[|]|]; simpl;
    destruct (table db); split_and!; try done; by intros [? ?].
Qed.





(** ** Durability *)




(** A [Date] passes [isSerializable] and is stored as its ISO-8601 text; what
    a fresh instance reads back is that string, not a [Date]. *)
Lemma date_read_back_as_string :
  ∃ w w',
    Demo.attach Demo.defaults (State true) (Demo.unused []) = Some w ∧
    isSerializable (VObject (DateObject (Some "2025-01-01T00:00:00.000Z")) [] []) = Returns true ∧
    Demo.attach Demo.defaults (State true)
      (store (write "userData"
                (VObject (DateObject (Some "2025-01-01T00:00:00.000Z")) [] []) w)) =
      Some w' ∧
    (read "userData" w').1 = VString "2025-01-01T00:00:00.000Z".
Proof.
  exists (Demo.instance Demo.defaults (State true) (Demo.unused [])),
    (Demo.instance Demo.defaults (State true)
       (store (write "userData"
                 (VObject (DateObject (Some "2025-01-01T00:00:00.000Z")) [] [])
                 (Demo.instance Demo.defaults (State true) (Demo.unused []))))).
  split_and!; by_computation.
Qed.

(** ** Schema initialization failure *)

Lemma exec_journal (q : stmt) (db : sql) :
  journal (exec q db).2 = journal db ++ [q].
Proof.
  unfold exec. destruct (default false (head (faults db))); [done|].
  by destruct q as [|k|k [x|]], (table db).
Qed.






(** ** Which properties are wrapped *)

Lemma blank_names (fields : list (string * any)) (protos : list (list (string * any)))
    (s : option bool) :
  (own (blank fields protos s)).*1 = fields.*1.
Proof.
  simpl. induction fields as [|[k v] l IH]; [done|]. cbn. f_equal. exact IH.
Qed.

(** Without a state argument nothing is wrapped. *)
Lemma new_Other (options : PersistableOptions) (constructor : fid)
    (fields : list (string * any)) (protos : list (list (string * any)))
    (db : sql) (log : list (level * string)) (w : world) (name : string) :
  new options constructor Other fields protos db log = Some w → field name w = None.
Proof.
  intros [= <-]. unfold field. simpl. rewrite assoc_map_Data.
  by destruct (assoc name fields).
Qed.

(** C3, as the code has it.  When [include] is given, a name is wrapped
    exactly when discovery lists it, it is in [include], it is not in
    [exclude], and its value is not callable: [exclude] is tested first and
    wins over [include]. *)
Theorem include_and_exclude (options : PersistableOptions) (constructor : fid)
    (b : bool) (fields : list (string * any)) (protos : list (list (string * any)))
    (db : sql) (log : list (level * string)) (w : world)
    (names inc : list string) (name : string) :
  new options constructor (State b) fields protos db log = Some w →
  getSerializableProperties constructor (blank fields protos None) = Some names →
  include options = Some inc →
  is_Some (field name w) ↔
    name ∈ names ∧ name ∈ inc ∧ (name ∉ default [] (exclude options)) ∧
    callable (initial fields protos name) = false.
Proof.
  intros Hnew Hnames Hinc.
  rewrite (new_field _ _ _ _ _ _ _ _ _ name Hnew Hnames).
  unfold eligible, includes. rewrite Hinc.
  repeat case_bool_decide; destruct (callable _); simpl;
    split; try (intros [? ?]; done); try (intros (? & ? & ? & ?); done); eauto.
Qed.

Lemma include_and_exclude_witness :
  is_Some (field "counter"
     (Demo.instance
        {| exclude := Some ["items"]; include := Some ["counter"; "items"]; prefix := None |}
        (State true) (Demo.unused []))) ↔
    "counter" ∈ ["ctx"; "env"; "counter"; "userData"; "settings"; "items"; "tempCallback"] ∧
    "counter" ∈ ["counter"; "items"] ∧
    ("counter" ∉ default [] (Some ["items"])) ∧
    callable (initial Demo.fields Demo.protos "counter") = false.
Proof.
  exact (include_and_exclude
           {| exclude := Some ["items"]; include := Some ["counter"; "items"]; prefix := None |}
           Demo.MyDurableObject true Demo.fields Demo.protos (Demo.unused []) []
           (Demo.instance
              {| exclude := Some ["items"]; include := Some ["counter"; "items"];
                 prefix := None |}
              (State true) (Demo.unused []))
           ["ctx"; "env"; "counter"; "userData"; "settings"; "items"; "tempCallback"]
           ["counter"; "items"] "counter"
           ltac:(by_computation) ltac:(by_computation)
           ltac:(by_computation)).
Defined.

(** C3 fails as stated.  [counter] is discovered, holds a number, and is
    named in [include]; it is also named in [exclude], and it is not
    wrapped. *)
Lemma include_and_exclude_counterexample :
  ∃ w names,
    Demo.attach
      {| exclude := Some ["counter"]; include := Some ["counter"]; prefix := None |}
      (State true) (Demo.unused []) = Some w ∧
    getSerializableProperties Demo.MyDurableObject
      (blank Demo.fields Demo.protos None) = Some names ∧
    "counter" ∈ names ∧
    callable (initial Demo.fields Demo.protos "counter") = false ∧
    "counter" ∈ ["counter"] ∧
    field "counter" w = None.
Proof.
  exists
    (Demo.instance
       {| exclude := Some ["counter"]; include := Some ["counter"]; prefix := None |}
       (State true) (Demo.unused [])),
    ["ctx"; "env"; "counter"; "userData"; "settings"; "items"; "tempCallback"].
  split_and!; try by_computation.
  - do 2 apply list_elem_of_further. apply list_elem_of_here.
  - apply list_elem_of_here.
Qed.

(** C8, as the code has it.  For every instance and every options value, a
    name that begins with an underscore, the name [constructor], and a name
    whose value is callable are never wrapped.  Discovery never lists a name
    that begins with an underscore, nor [constructor]; what it lists is an own
    property name of the instance (callable or not) or a name of a prototype
    whose value, seen from that prototype, is not callable. *)
Theorem never_wrapped (options : PersistableOptions) (constructor : fid)
    (fields : list (string * any)) (protos : list (list (string * any)))
    (name : string) :
  (∀ arg0 db log w,
     new options constructor arg0 fields protos db log = Some w →
     String.prefix "_" name = true ∨ name = "constructor" ∨
       callable (initial fields protos name) = true →
     field name w = None) ∧
  (∀ s names,
     getSerializableProperties constructor (blank fields protos s) = Some names →
     name ∈ names →
     String.prefix "_" name = false ∧ name ≠ "constructor" ∧
     (name ∈ fields.*1 ∨
      ∃ k proto rest, drop k protos = proto :: rest ∧ name ∈ proto.*1 ∧
        callable (chain_member (proto :: rest) name) = false)).
Proof.
  assert (Hadm : ∀ s names,
    getSerializableProperties constructor (blank fields protos s) = Some names →
    name ∈ names → String.prefix "_" name = false ∧ name ≠ "constructor").
  { intros s names Hn Hin.
    pose proof (discovered_admissible _ _ _ _ Hn Hin) as Ha. unfold admissible in Ha.
    apply andb_true_iff in Ha as [Hp%negb_true_iff Hc%negb_true_iff].
    split; [done|]. intros ->. by rewrite String.eqb_refl in Hc. }
  split.
  - intros [b|] db log w Hnew Hcase; [|by eapply new_Other].
    pose proof Hnew as (names & Hn & _)%new_inv.
    rewrite (new_field _ _ _ _ _ _ _ _ names name Hnew Hn).
    destruct (bool_decide (name ∈ names)) eqn:Hin; [|done].
    apply bool_decide_eq_true in Hin.
    destruct (Hadm _ _ Hn Hin) as [Hp Hc].
    destruct Hcase as [?|[?|Hcall]]; [congruence | done |].
    unfold eligible. by rewrite Hcall, andb_false_r.
  - intros s names Hn Hin. destruct (Hadm _ _ Hn Hin) as [Hp Hc].
    split_and!; [done | done |].
    destruct (walk_elem _ _ _ _ _ Hn Hin) as [Hown|(k & p & r & Hk & Hp' & _ & Hcall)].
    + left. apply (elem_of_collect admissible) in Hown as [Hnil|[Hown _]].
      * by apply elem_of_nil in Hnil.
      * by rewrite blank_names in Hown.
    + right. by exists k, p, r.
Qed.

(** C8 fails as stated.  [tempCallback] holds a function and is an own
    property of the instance: discovery lists it.  (It is the loop of
    [setupPropertyPersistence] that then skips it.) *)
Lemma never_wrapped_counterexample :
  getSerializableProperties Demo.MyDurableObject
    (blank Demo.fields Demo.protos (Some true)) =
    Some ["ctx"; "env"; "counter"; "userData"; "settings"; "items"; "tempCallback"] ∧
  callable (initial Demo.fields Demo.protos "tempCallback") = true.
Proof. split; by_computation. Qed.

(** ** The Validator *)









(** * Further properties of the decorator *)

(** Construction of the concrete object, decided by evaluation even when the
    store it is bound to is itself the outcome of a computation. *)
Lemma attach_returned (options : PersistableOptions) (arg0 : argument) (db : sql) :
  returned (Demo.attach options arg0 db) = true →
  Demo.attach options arg0 db = Some (Demo.instance options arg0 db).
Proof. unfold Demo.instance. by destruct (Demo.attach options arg0 db). Qed.

Lemma new_returned (options : PersistableOptions) (arg0 : argument) (db : sql) :
  returned (new options Demo.MyDurableObject arg0 Demo.fields Demo.protos db []) = true →
  new options Demo.MyDurableObject arg0 Demo.fields Demo.protos db [] =
    Some (Demo.instance options arg0 db).
Proof. apply attach_returned. Qed.

Ltac by_evaluation :=
  lazymatch goal with
  | |- Demo.attach ?o ?a ?db = Some (Demo.instance ?o ?a ?db) =>
      exact (attach_returned o a db ltac:(vm_compute; reflexivity))
  | |- new ?o _ ?a _ _ ?db _ = Some (Demo.instance ?o ?a ?db) =>
      exact (new_returned o a db ltac:(vm_compute; reflexivity))
  | |- _ => by_computation
  end.

(** ** Properties that are not wrapped *)

(** Reading a property that is not wrapped changes nothing. *)
Lemma read_unwrapped (name : string) (w : world) :
  field name w = None → (read name w).2 = w.
Proof.
  unfold field, read. by destruct (assoc name (own (this w))) as [[x|c]|].
Qed.

(** Assigning to a property that is not wrapped replaces (or creates) a data
    property: the store and the console are not touched, and the property
    reads back as assigned. *)
Lemma write_unwrapped (name : string) (v : any) (w : world) :
  field name w = None →
  store (write name v w) = store w ∧ console (write name v w) = console w ∧
  read name (write name v w) = (v, write name v w).
Proof.
  intros Hf. unfold field in Hf. unfold write.
  destruct (assoc name (own (this w))) as [[x|c]|] eqn:E; try done.
  - split_and!; [done | done |]. unfold read. simpl. by rewrite assoc_define_eq.
  - split_and!; [done | done |]. unfold read. simpl. by rewrite assoc_define_eq.
Qed.

Lemma field_None_step (w : world) (o : op) (name : string) :
  field name w = None → field name (step w o) = None.
Proof.
  intros H. pose proof (step_field w o name) as Hk. rewrite H in Hk.
  by destruct (field name (step w o)).
Qed.

Lemma field_None_run (ops : list op) (w : world) (name : string) :
  field name w = None → field name (run ops w) = None.
Proof.
  intros H. pose proof (run_field ops w name) as Hk. rewrite H in Hk.
  by destruct (field name (run ops w)).
Qed.

(** A world without any wrapped property stays as it is, store and console,
    under every operation. *)
Lemma run_unwrapped (ops : list op) (w : world) :
  (∀ name, field name w = None) →
  store (run ops w) = store w ∧ console (run ops w) = console w.
Proof.
  revert w. induction ops as [|o ops IH]; intros w Hw; [done|]. simpl.
  destruct (IH (step w o)) as [-> ->].
  { intros name. by apply field_None_step. }
  destruct o as [n|n v]; simpl.
  - by rewrite read_unwrapped.
  - by destruct (write_unwrapped n v w (Hw n)) as (-> & -> & _).
Qed.

(** Persistence is optional.  When the first constructor argument is not an
    object with a [storage] member, construction succeeds whatever the
    prototype chain is, and for the whole life of the instance no property is
    wrapped, no statement reaches the store, nothing is logged, and every
    property reads back what was last assigned to it. *)
Theorem without_storage (options : PersistableOptions) (constructor : fid)
    (fields : list (string * any)) (protos : list (list (string * any)))
    (db : sql) (log : list (level * string)) (ops : list op) (name : string) (v : any) :
  ∃ w0,
    new options constructor Other fields protos db log = Some w0 ∧
    field name (run ops w0) = None ∧
    store (run ops w0) = db ∧ console (run ops w0) = log ∧
    store (write name v (run ops w0)) = db ∧
    read name (write name v (run ops w0)) = (v, write name v (run ops w0)).
Proof.
  eexists. split; [reflexivity|].
  set (w0 := {| this := _ |}).
  assert (Hnone : ∀ n, field n w0 = None).
  { intros n. by apply (new_Other options constructor fields protos db log). }
  destruct (run_unwrapped ops w0 Hnone) as [Hst Hco].
  pose proof (field_None_run ops w0 name (Hnone name)) as Hf.
  destruct (write_unwrapped name v _ Hf) as (Hst' & _ & Hrw).
  split_and!; try done. by rewrite Hst'.
Qed.

(** A name listed in [exclude] is never wrapped, whatever [include] says and
    whatever the constructor argument is: for the whole life of the instance
    reading it changes nothing, assigning to it touches neither the store nor
    the console, and it reads back as assigned. *)
Theorem excluded_is_plain (options : PersistableOptions) (constructor : fid)
    (arg0 : argument) (fields : list (string * any))
    (protos : list (list (string * any))) (db : sql) (log : list (level * string))
    (w0 : world) (ops : list op) (name : string) (v : any) :
  new options constructor arg0 fields protos db log = Some w0 →
  name ∈ default [] (exclude options) →
  field name (run ops w0) = None ∧
  (read name (run ops w0)).2 = run ops w0 ∧
  store (write name v (run ops w0)) = store (run ops w0) ∧
  console (write name v (run ops w0)) = console (run ops w0) ∧
  read name (write name v (run ops w0)) = (v, write name v (run ops w0)).
Proof.
  intros Hnew Hex.
  assert (Hf0 : field name w0 = None).
  { destruct arg0 as [b|]; [|by eapply new_Other].
    pose proof Hnew as (names & Hn & _)%new_inv.
    rewrite (new_field _ _ _ _ _ _ _ _ names name Hnew Hn).
    unfold eligible, includes. rewrite (bool_decide_eq_true_2 _ Hex).
    by rewrite andb_false_r. }
  pose proof (field_None_run ops w0 name Hf0) as Hf.
  destruct (write_unwrapped name v _ Hf) as (? & ? & ?).
  split_and!; try done. by apply read_unwrapped.
Qed.

Lemma excluded_is_plain_witness :
  field "counter"
    (run [Write "counter" (VNumber 3); Read "counter"]
       (Demo.instance
          {| exclude := Some ["counter"]; include := None; prefix := None |}
          (State true) (Demo.used []))) = None ∧
  (read "counter"
     (run [Write "counter" (VNumber 3); Read "counter"]
        (Demo.instance
           {| exclude := Some ["counter"]; include := None; prefix := None |}
           (State true) (Demo.used [])))).2 =
    run [Write "counter" (VNumber 3); Read "counter"]
      (Demo.instance
         {| exclude := Some ["counter"]; include := None; prefix := None |}
         (State true) (Demo.used [])) ∧
  store (write "counter" (VNumber 7)
     (run [Write "counter" (VNumber 3); Read "counter"]
        (Demo.instance
           {| exclude := Some ["counter"]; include := None; prefix := None |}
           (State true) (Demo.used [])))) =
    store (run [Write "counter" (VNumber 3); Read "counter"]
      (Demo.instance
         {| exclude := Some ["counter"]; include := None; prefix := None |}
         (State true) (Demo.used []))).
Proof.
  pose proof (excluded_is_plain
                {| exclude := Some ["counter"]; include := None; prefix := None |}
                Demo.MyDurableObject (State true) Demo.fields Demo.protos
                (Demo.used []) []
                (Demo.instance
                   {| exclude := Some ["counter"]; include := None; prefix := None |}
                   (State true) (Demo.used []))
                [Write "counter" (VNumber 3); Read "counter"] "counter" (VNumber 7)
                ltac:(by_computation) ltac:(apply list_elem_of_here))
    as (H1 & H2 & H3 & _).
  exact (conj H1 (conj H2 H3)).
Defined.

(** ** The statements an instance issues *)

Lemma get_statement (name : string) (c : cell) (w : world) :
  ∃ js, journal (store (get name c w).2) = journal (store w) ++ js ∧
        (length js ≤ 1)%nat ∧
        (has_sql (this w) = false → js = []) ∧
        (∀ q, q ∈ js → q = Select (storageKey c)).
Proof.
  destruct (initialized c) eqn:Ei.
  - rewrite get_initialized by done. exists []. rewrite app_nil_r.
    split_and!; [done | simpl; lia | done | by intros q ?%elem_of_nil].
  - rewrite get_uninitialized by done. simpl.
    destruct (has_sql (this w)) eqn:Hsql.
    + rewrite load_store by done. exists [Select (storageKey c)].
      split_and!; [apply exec_journal | simpl; lia | done |].
      by intros q ->%list_elem_of_singleton.
    + unfold load. rewrite Hsql. simpl. exists []. rewrite app_nil_r.
      split_and!; [done | simpl; lia | done | by intros q ?%elem_of_nil].
Qed.

Lemma set_statement (name : string) (c : cell) (v : any) (w : world) :
  ∃ js, journal (store (after w (set name c v w))) = journal (store w) ++ js ∧
        (length js ≤ 1)%nat ∧
        (has_sql (this w) = false → js = []) ∧
        (∀ q, q ∈ js → ∃ x, q = InsertOrReplace (storageKey c) x).
Proof.
  assert (Hnone : ∃ js, journal (store w) = journal (store w) ++ js ∧
        (length js ≤ 1)%nat ∧ (has_sql (this w) = false → js = []) ∧
        (∀ q, q ∈ js → ∃ x, q = InsertOrReplace (storageKey c) x)).
  { exists []. rewrite app_nil_r.
    split_and!; [done | simpl; lia | done | by intros q ?%elem_of_nil]. }
  assert (Hone : ∀ x, ∃ js,
        journal (exec (InsertOrReplace (storageKey c) x) (store w)).2 =
          journal (store w) ++ js ∧
        (length js ≤ 1)%nat ∧ (true = false → js = []) ∧
        (∀ q, q ∈ js → ∃ x, q = InsertOrReplace (storageKey c) x)).
  { intros x. exists [InsertOrReplace (storageKey c) x].
    split_and!; [apply exec_journal | simpl; lia | done |].
    intros q ->%list_elem_of_singleton. eauto. }
  unfold set. destruct (isSerializable v) as [[|]|]; simpl; [|done|done].
  destruct (has_sql (this w)); [|done].
  destruct (JSON_stringify v) as [j| |]; [| |done].
  - specialize (Hone (Some (Document j))). by destruct (exec _ _) as [[?|] ?].
  - specialize (Hone None). by destruct (exec _ _) as [[?|] ?].
Qed.

(** One operation hands at most one statement to the store, none at all
    without an SQL handle, and only a lookup or an upsert under the storage
    key of a wrapped property. *)
Lemma step_statement (w : world) (o : op) :
  ∃ js, journal (store (step w o)) = journal (store w) ++ js ∧
        (length js ≤ 1)%nat ∧
        (has_sql (this w) = false → js = []) ∧
        (∀ q, q ∈ js → ∃ n c, field n w = Some c ∧
           (q = Select (storageKey c) ∨ ∃ x, q = InsertOrReplace (storageKey c) x)).
Proof.
  assert (Hnone : ∃ js, journal (store w) = journal (store w) ++ js ∧
        (length js ≤ 1)%nat ∧ (has_sql (this w) = false → js = []) ∧
        (∀ q, q ∈ js → ∃ n c, field n w = Some c ∧
           (q = Select (storageKey c) ∨ ∃ x, q = InsertOrReplace (storageKey c) x))).
  { exists []. rewrite app_nil_r.
    split_and!; [done | simpl; lia | done | by intros q ?%elem_of_nil]. }
  destruct o as [n|n v]; simpl.
  - unfold read. destruct (assoc n (own (this w))) as [[x|c]|] eqn:E; try done.
    destruct (get_statement n c w) as (js & Hj & Hlen & Hsql & Hq).
    exists js. split_and!; try done.
    intros q Hin. exists n, c. split; [by apply field_Some | left; by apply Hq].
  - unfold write. destruct (assoc n (own (this w))) as [[x|c]|] eqn:E; try done.
    destruct (set_statement n c v w) as (js & Hj & Hlen & Hsql & Hq).
    exists js. split_and!; try done.
    intros q Hin. exists n, c. split; [by apply field_Some | right; by apply Hq].
Qed.

Lemma run_snoc (ops : list op) (o : op) (w : world) :
  run (ops ++ [o]) w = step (run ops w) o.
Proof. unfold run. by rewrite fold_left_app. Qed.

(** The schema is ensured once, at construction, and never again.  Over the
    whole life of an instance constructed with a state argument, the
    statements handed to the store are: one CREATE TABLE (none without an SQL
    handle), followed by at most one statement per operation, each of them a
    lookup or an upsert under the key [prefix] followed by the name of a
    wrapped property. *)
Theorem statements_issued (options : PersistableOptions) (constructor : fid)
    (b : bool) (fields : list (string * any)) (protos : list (list (string * any)))
    (db : sql) (log : list (level * string)) (w0 : world) (ops : list op) :
  new options constructor (State b) fields protos db log = Some w0 →
  ∃ js,
    journal (store (run ops w0)) =
      journal db ++ (if b then [CreateTable] else []) ++ js ∧
    (length js ≤ length ops)%nat ∧
    (b = false → js = []) ∧
    (∀ q, q ∈ js → ∃ n,
       is_Some (field n w0) ∧
       (q = Select (default "" (prefix options) +:+ n) ∨
        ∃ x, q = InsertOrReplace (default "" (prefix options) +:+ n) x)).
Proof.
  intros Hnew. induction ops as [|o ops IH] using rev_ind.
  - exists []. rewrite app_nil_r. simpl.
    destruct (new_store _ _ _ _ _ _ _ _ Hnew) as [-> _].
    unfold initializeStorage. simpl. split_and!; [|lia|done|by intros q ?%elem_of_nil].
    destruct b; simpl; [|by rewrite app_nil_r].
    pose proof (exec_journal CreateTable db). by destruct (exec _ _) as [[?|] ?].
  - destruct IH as (js & Hj & Hlen & Hb & Hq).
    rewrite run_snoc.
    destruct (step_statement (run ops w0) o) as (js' & Hj' & Hlen' & Hsql' & Hq').
    exists (js ++ js'). split_and!.
    + rewrite Hj', Hj. by rewrite <- !app_assoc.
    + rewrite !length_app. simpl. lia.
    + intros ->. rewrite (Hb eq_refl), Hsql'; [done|].
      rewrite run_has_sql. by eapply new_has_sql.
    + intros q [Hin|Hin]%elem_of_app; [by apply Hq|].
      destruct (Hq' q Hin) as (n & c & Hf & Hcase).
      destruct (live_field _ _ _ _ _ _ _ _ _ _ _ Hnew Hf) as (Hf0 & Hkey & _).
      exists n. rewrite <- Hkey. split; [by rewrite Hf0 | done].
Qed.

Lemma statements_issued_witness :
  ∃ js,
    journal (store (run [Read "counter"; Write "counter" (VNumber 6); Read "counter"]
               (Demo.instance Demo.defaults (State true) (Demo.used [])))) =
      journal (Demo.used []) ++ (if true then [CreateTable] else []) ++ js ∧
    (length js ≤ length [Read "counter"; Write "counter" (VNumber 6); Read "counter"])%nat ∧
    (true = false → js = []) ∧
    (∀ q, q ∈ js → ∃ n,
       is_Some (field n (Demo.instance Demo.defaults (State true) (Demo.used []))) ∧
       (q = Select (default "" (prefix Demo.defaults) +:+ n) ∨
        ∃ x, q = InsertOrReplace (default "" (prefix Demo.defaults) +:+ n) x)).
Proof.
  exact (statements_issued Demo.defaults Demo.MyDurableObject true Demo.fields
           Demo.protos (Demo.used []) []
           (Demo.instance Demo.defaults (State true) (Demo.used []))
           [Read "counter"; Write "counter" (VNumber 6); Read "counter"]
           ltac:(by_computation)).
Defined.

(** ** Properties do not interfere *)

Lemma append_inj (p a b : string) : p +:+ a = p +:+ b → a = b.
Proof. induction p as [|ch p IH]; simpl; [done|]. intros [= H]. auto. Qed.

(** A statement changes at most the row it names: only an upsert, and only
    under its own key. *)
Lemma exec_rows (q : stmt) (db : sql) (k : string) :
  (∀ x, q ≠ InsertOrReplace k x) →
  table (exec q db).2 ≫= lookup k = table db ≫= lookup k.
Proof.
  intros Hq. unfold exec. destruct (default false (head (faults db))); [done|].
  destruct q as [|key|key [x|]], (table db) as [t|]; simpl; try done.
  rewrite lookup_insert_ne; [done|]. intros ->. by eapply Hq.
Qed.

(** A read never changes a row. *)
Lemma get_rows (name : string) (c : cell) (w : world) :
  table (store (get name c w).2) = table (store w).
Proof.
  destruct (initialized c) eqn:Ei.
  - by rewrite get_initialized.
  - rewrite get_uninitialized by done. simpl.
    destruct (has_sql (this w)) eqn:Hsql.
    + rewrite load_store by done. by destruct (exec_Select (storageKey c) (store w)) as (_ & -> & _).
    + unfold load. by rewrite Hsql.
Qed.

Lemma set_rows (name : string) (c : cell) (v : any) (w : world) (k : string) :
  k ≠ storageKey c →
  table (store (after w (set name c v w))) ≫= lookup k = table (store w) ≫= lookup k.
Proof.
  intros Hk. unfold set. destruct (isSerializable v) as [[|]|]; simpl; [|done|done].
  destruct (has_sql (this w)); [|done].
  assert (Hex : ∀ x, table (exec (InsertOrReplace (storageKey c) x) (store w)).2
                       ≫= lookup k = table (store w) ≫= lookup k).
  { intros x. apply exec_rows. intros y [= Heq _]. congruence. }
  destruct (JSON_stringify v) as [j| |]; [| |done].
  - specialize (Hex (Some (Document j))). by destruct (exec _ _) as [[?|] ?].
  - specialize (Hex None). by destruct (exec _ _) as [[?|] ?].
Qed.

(** An operation on one property leaves the accessor state of every other
    property as it is. *)
Lemma step_other (w : world) (o : op) (name : string) :
  target o ≠ name → field name (step w o) = field name w.
Proof.
  intros Hne. destruct o as [n|n v]; simpl in *.
  - unfold read. destruct (assoc n (own (this w))) as [[x|c]|]; try done.
    by apply field_get_ne.
  - unfold write. destruct (assoc n (own (this w))) as [[x|c]|].
    + unfold field. simpl. by rewrite assoc_define_ne.
    + by apply field_set_ne.
    + unfold field. simpl. by rewrite assoc_define_ne.
Qed.



(** ** What a write leaves behind *)





(** ** What a first read finds *)

Lemma new_read_hydrated (options : PersistableOptions) (constructor : fid)
    (fields : list (string * any)) (protos : list (list (string * any)))
    (db : sql) (log : list (level * string)) (w : world) (name : string)
    (t : gmap string text) :
  new options constructor (State true) fields protos db log = Some w →
  is_Some (field name w) →
  faults db !! 1%nat ≠ Some true → table db = Some t →
  (read name w).1 =
    hydrated t (default "" (prefix options) +:+ name) (initial fields protos name).
Proof.
  intros Hnew [c Hf] Hok Ht.
  destruct (new_original _ _ _ _ _ _ _ _ _ _ Hnew Hf) as [-> Horig].
  pose proof (new_has_sql _ _ _ _ _ _ _ _ Hnew) as Hsql.
  destruct (new_store _ _ _ _ _ _ _ _ Hnew) as [Hst _].
  unfold initializeStorage in Hst. simpl in Hst.
  rewrite (read_wrapped _ _ _ Hf), get_uninitialized by done. simpl.
  rewrite <- Horig.
  apply (load_hydrated name (fresh_cell options fields protos name) w t); [done| |].
  - rewrite Hst. destruct (exec_CreateTable db) as (_ & Hfl & _).
    destruct (exec CreateTable db) as [[?|] d]; simpl in *;
      by rewrite Hfl, head_lookup, lookup_tail.
  - rewrite Hst. destruct (exec_CreateTable db) as (_ & _ & Htb & _).
    destruct (exec CreateTable db) as [[?|] d]; simpl in *;
      rewrite Htb; eauto.
Qed.

(** What a fresh instance reads.  On a fresh instance with an SQL handle the
    first read of a wrapped property is decided by the store alone: when the
    lookup does not throw and the table exists, it is the value of the row
    under [prefix] followed by the name if that row exists and parses, and
    the property's initial value otherwise; when the lookup throws, or the
    table did not exist before construction, it is the initial value.
    Whether the instance's own CREATE TABLE threw makes no difference. *)
Theorem fresh_instance_reads (options : PersistableOptions) (constructor : fid)
    (fields : list (string * any)) (protos : list (list (string * any)))
    (db : sql) (log : list (level * string)) (w : world) (name : string) :
  new options constructor (State true) fields protos db log = Some w →
  is_Some (field name w) →
  (∀ t, faults db !! 1%nat ≠ Some true → table db = Some t →
     (read name w).1 =
       hydrated t (default "" (prefix options) +:+ name) (initial fields protos name)) ∧
  (faults db !! 1%nat = Some true ∨ table db = None →
     (read name w).1 = initial fields protos name).
Proof.
  intros Hnew Hw. split.
  { intros t Hok Ht.
    by apply (new_read_hydrated options constructor fields protos db log). }
  destruct Hw as [c Hf].
  destruct (new_original _ _ _ _ _ _ _ _ _ _ Hnew Hf) as [-> Horig].
  pose proof (new_has_sql _ _ _ _ _ _ _ _ Hnew) as Hsql.
  destruct (new_store _ _ _ _ _ _ _ _ Hnew) as [Hst _].
  unfold initializeStorage in Hst. simpl in Hst.
  assert (Hfaults : head (faults (store w)) = faults db !! 1%nat).
  { rewrite Hst. destruct (exec_CreateTable db) as (_ & Hfl & _).
    destruct (exec CreateTable db) as [[?|] d]; simpl in *;
      by rewrite Hfl, head_lookup, lookup_tail. }
  rewrite (read_wrapped _ _ _ Hf), get_uninitialized by done. simpl.
  - intros Hcase. rewrite <- Horig.
    destruct Hcase as [Hbad|Hnone].
    { apply load_failure; [done|]. left. by rewrite Hfaults. }
    destruct (head (faults db)) as [[|]|] eqn:Hh.
    + apply load_failure; [done|]. right; left. rewrite Hst.
      unfold exec. by rewrite Hh, Hnone.
    + destruct (decide (head (faults (store w)) = Some true)) as [Hthrow|Hok].
      { apply load_failure; [done|]. by left. }
      rewrite (load_hydrated _ _ _ ∅ Hsql Hok); [done|].
      rewrite Hst. unfold exec. by rewrite Hh, Hnone.
    + destruct (decide (head (faults (store w)) = Some true)) as [Hthrow|Hok].
      { apply load_failure; [done|]. by left. }
      rewrite (load_hydrated _ _ _ ∅ Hsql Hok); [done|].
      rewrite Hst. unfold exec. by rewrite Hh, Hnone.
Qed.

Lemma fresh_instance_reads_witness :
  (∀ t, faults (Demo.used []) !! 1%nat ≠ Some true → table (Demo.used []) = Some t →
     (read "counter" (Demo.instance Demo.defaults (State true) (Demo.used []))).1 =
       hydrated t (default "" (prefix Demo.defaults) +:+ "counter")
         (initial Demo.fields Demo.protos "counter")) ∧
  (faults (Demo.used []) !! 1%nat = Some true ∨ table (Demo.used []) = None →
     (read "counter" (Demo.instance Demo.defaults (State true) (Demo.used []))).1 =
       initial Demo.fields Demo.protos "counter").
Proof.
  exact (fresh_instance_reads Demo.defaults Demo.MyDurableObject Demo.fields
           Demo.protos (Demo.used []) []
           (Demo.instance Demo.defaults (State true) (Demo.used [])) "counter"
           ltac:(by_computation)
           ltac:(exists {| storageKey := "counter"; value := VNumber 0;
                           initialized := false |}; by_computation)).
Defined.



(** The stale row comes back: in the situation of the witness the write of 7
    failed, the row still holds 5, and the read that follows returns 5. *)
Lemma stale_row_comes_back :
  (read "counter" (write "counter" (VNumber 7)
     (Demo.instance Demo.defaults (State true) (Demo.used [false; true])))).1 =
  VNumber 5.
Proof. by_computation. Qed.




(** ** More on field discovery *)







(** Discovery stops at the decorated class.  The first prototype of an
    instance is the prototype of the class the decorator returns, the second
    the prototype of the decorated class.  With that shape the walk looks at
    the first prototype only: discovery returns, and a name is listed exactly
    when it is an admissible own property name of the instance or an
    admissible name of the first prototype holding a value that is not
    callable.  What the decorated class or its ancestors define on their
    prototypes is never discovered. *)
Theorem discovery_stops_at_decorated_class (constructor : fid)
    (fields : list (string * any)) (p0 p1 : list (string * any))
    (rest : list (list (string * any))) (state : option bool) :
  is_function Object_fn (chain_member (p0 :: p1 :: rest) "constructor") = false →
  is_function constructor (chain_member (p1 :: rest) "constructor") = true →
  ∃ names,
    getSerializableProperties constructor (blank fields (p0 :: p1 :: rest) state) =
      Some names ∧
    ∀ x, x ∈ names ↔
      admissible x = true ∧
      (x ∈ fields.*1 ∨
       (x ∈ p0.*1 ∧ callable (chain_member (p0 :: p1 :: rest) x) = false)).
Proof.
  intros Hobj Hdec. unfold getSerializableProperties.
  rewrite blank_names. cbn [prototypes blank walk]. rewrite Hobj, Hdec.
  eexists. split; [reflexivity|]. intros x.
  rewrite (elem_of_collect
    (λ p, admissible p && negb (callable (chain_member (p0 :: p1 :: rest) p)))).
  rewrite (elem_of_collect admissible), elem_of_nil.
  rewrite andb_true_iff, negb_true_iff. naive_solver.
Qed.

Lemma discovery_stops_at_decorated_class_witness :
  ∃ names,
    getSerializableProperties Demo.MyDurableObject
      (blank Demo.fields
         ([ ("constructor", Demo.class (User_fn 2));
            ("initializeStorage", Demo.closure 10) ] ::
          [ ("constructor", Demo.class Demo.MyDurableObject);
            ("version", VNumber 1) ] ::
          [ [ ("constructor", VFunction Object_fn NoText []) ] ])
         (Some true)) = Some names ∧
    ∀ x, x ∈ names ↔
      admissible x = true ∧
      (x ∈ Demo.fields.*1 ∨
       (x ∈ [ ("constructor", Demo.class (User_fn 2));
              ("initializeStorage", Demo.closure 10) ].*1 ∧
        callable
          (chain_member
             ([ ("constructor", Demo.class (User_fn 2));
                ("initializeStorage", Demo.closure 10) ] ::
              [ ("constructor", Demo.class Demo.MyDurableObject);
                ("version", VNumber 1) ] ::
              [ [ ("constructor", VFunction Object_fn NoText []) ] ]) x) = false)).
Proof.
  exact (discovery_stops_at_decorated_class Demo.MyDurableObject Demo.fields
           [ ("constructor", Demo.class (User_fn 2));
             ("initializeStorage", Demo.closure 10) ]
           [ ("constructor", Demo.class Demo.MyDurableObject);
             ("version", VNumber 1) ]
           [ [ ("constructor", VFunction Object_fn NoText []) ] ]
           (Some true) ltac:(by_computation) ltac:(by_computation)).
Defined.

Lemma walk_returns (constructor : fid) (protos : list (list (string * any)))
    (s : list string) (p : list (string * any)) :
  last protos = Some p →
  is_function Object_fn (default VUndefined (assoc "constructor" p)) = true →
  is_Some (walk constructor protos s).
Proof.
  revert s. induction protos as [|proto rest IH]; intros s Hlast Hp; [done|].
  cbn [walk].
  destruct (is_function Object_fn (chain_member (proto :: rest) "constructor")) eqn:E;
    [eauto|].
  destruct rest as [|proto' rest'].
  - simpl in Hlast. injection Hlast as ->. cbn [chain_member] in E. congruence.
  - destruct (is_function constructor _); [eauto|].
    apply IH; [|done]. by rewrite last_cons_cons in Hlast.
Qed.

(** Discovery returns.  The walk up the prototype chain (lines 78-92) can
    throw in one place only: where it reads [constructor] off the [null] that
    follows the last prototype.  For an object whose prototype chain ends in
    [Object.prototype] (the last prototype has [Object] as its own
    [constructor]) it never gets there: [getSerializableProperties] returns a
    list of names, whatever the own properties of the object, the decorated
    class and the prototypes in between hold. *)
Theorem discovery_returns (constructor : fid) (fields : list (string * any))
    (protos : list (list (string * any))) (state : option bool)
    (p : list (string * any)) :
  last protos = Some p →
  is_function Object_fn (default VUndefined (assoc "constructor" p)) = true →
  is_Some (getSerializableProperties constructor (blank fields protos state)).
Proof. intros Hlast Hp. by apply (walk_returns constructor protos _ p). Qed.

Lemma discovery_returns_witness :
  is_Some (getSerializableProperties Demo.MyDurableObject
             (blank Demo.fields Demo.protos (Some true))).
Proof.
  exact (discovery_returns Demo.MyDurableObject Demo.fields Demo.protos (Some true)
           [ ("constructor", VFunction Object_fn NoText []) ]
           ltac:(by_computation) ltac:(by_computation)).
Defined.

(** When the chain does not end in [Object.prototype], the walk runs off its
    end: reading [constructor] off [null] throws, and so does the
    constructor, if it was given a state argument. *)
Lemma construction_throws :
  new Demo.defaults Demo.MyDurableObject (State true) Demo.fields
    [ [ ("constructor", Demo.class (User_fn 2)) ];
      [ ("constructor", Demo.class (User_fn 5)) ] ] (Demo.unused []) [] = None ∧
  is_Some (new Demo.defaults Demo.MyDurableObject Other Demo.fields
    [ [ ("constructor", Demo.class (User_fn 2)) ];
      [ ("constructor", Demo.class (User_fn 5)) ] ] (Demo.unused []) []).
Proof. split; [by_computation | by eexists]. Qed.

(** ** The Validator and [JSON.stringify] *)











(** A date is accepted whatever it carries.  With a property [toISOString]
    of its own that is not a function, [Date.prototype.toJSON] cannot make
    its call and [JSON.stringify] throws. *)
Lemma date_without_toISOString :
  isSerializable
    (VObject (DateObject (Some "2025-01-01T00:00:00.000Z")) []
       [("toISOString", VNumber 5)]) = Returns true ∧
  JSON_stringify
    (VObject (DateObject (Some "2025-01-01T00:00:00.000Z")) []
       [("toISOString", VNumber 5)]) = Throws.
Proof. split; by_computation. Qed.

(** The Validator does not look inside a date or a value with [toJSON].  A
    [Date] whose own [toJSON] property is not a function and which carries a
    BigInt passes [isSerializable], and [JSON.stringify] throws on it; the
    write keeps the value in memory, issues no statement and logs the
    failure. *)
Lemma accepted_value_can_throw :
  isSerializable
    (VObject (DateObject (Some "2025-01-01T00:00:00.000Z")) []
       [("toJSON", VNumber 5); ("n", VBigInt 10)]) = Returns true ∧
  JSON_stringify
    (VObject (DateObject (Some "2025-01-01T00:00:00.000Z")) []
       [("toJSON", VNumber 5); ("n", VBigInt 10)]) = Throws ∧
  journal (store (write "userData"
     (VObject (DateObject (Some "2025-01-01T00:00:00.000Z")) []
        [("toJSON", VNumber 5); ("n", VBigInt 10)])
     (Demo.instance Demo.defaults (State true) (Demo.used [])))) = [CreateTable] ∧
  console (write "userData"
     (VObject (DateObject (Some "2025-01-01T00:00:00.000Z")) []
        [("toJSON", VNumber 5); ("n", VBigInt 10)])
     (Demo.instance Demo.defaults (State true) (Demo.used []))) =
    [(error, "Failed to persist property userData:")].
Proof. split_and!; by_computation. Qed.

(** ** Attachment and the rows *)

(** Construction leaves the rows alone.  Whatever its argument, the
    constructor reads no row and changes none: every key holds after
    construction what it held before (an absent table counts as empty), the
    only statement it can issue is the one CREATE TABLE, and every wrapped
    property starts Uninitialized with its initial value in the cell. *)
Theorem construction_keeps_rows (options : PersistableOptions) (constructor : fid)
    (arg0 : argument) (fields : list (string * any))
    (protos : list (list (string * any))) (db : sql) (log : list (level * string))
    (w0 : world) :
  new options constructor arg0 fields protos db log = Some w0 →
  (∀ k, table (store w0) ≫= lookup k = table db ≫= lookup k) ∧
  (journal (store w0) = journal db ∨ journal (store w0) = journal db ++ [CreateTable]) ∧
  (∀ name c, field name w0 = Some c →
     initialized c = false ∧ value c = initial fields protos name).
Proof.
  intros Hnew. destruct arg0 as [b|].
  - destruct (new_store _ _ _ _ _ _ _ _ Hnew) as [Hst _].
    unfold initializeStorage in Hst. simpl in Hst. split_and!.
    + intros k. rewrite Hst. destruct b; [|done].
      pose proof (exec_rows CreateTable db k ltac:(done)).
      by destruct (exec CreateTable db) as [[?|] ?].
    + rewrite Hst. destruct b; [right|by left].
      pose proof (exec_journal CreateTable db).
      by destruct (exec CreateTable db) as [[?|] ?].
    + intros name c Hf.
      by destruct (new_original _ _ _ _ _ _ _ _ _ _ Hnew Hf) as [-> _].
  - injection Hnew as <-. split_and!; [done | by left |].
    intros name c Hf.
    by rewrite (new_Other options constructor fields protos db log _ name eq_refl) in Hf.
Qed.

Lemma construction_keeps_rows_witness :
  (∀ k, table (store (Demo.instance Demo.defaults (State true) (Demo.used [])))
          ≫= lookup k = table (Demo.used []) ≫= lookup k) ∧
  (journal (store (Demo.instance Demo.defaults (State true) (Demo.used []))) =
     journal (Demo.used []) ∨
   journal (store (Demo.instance Demo.defaults (State true) (Demo.used []))) =
     journal (Demo.used []) ++ [CreateTable]) ∧
  (∀ name c,
     field name (Demo.instance Demo.defaults (State true) (Demo.used [])) = Some c →
     initialized c = false ∧ value c = initial Demo.fields Demo.protos name).
Proof.
  exact (construction_keeps_rows Demo.defaults Demo.MyDurableObject (State true)
           Demo.fields Demo.protos (Demo.used []) []
           (Demo.instance Demo.defaults (State true) (Demo.used []))
           ltac:(by_evaluation)).
Defined.

(** ** A loaded property is a register *)




(** In the situation of the witness the array that contains itself is not
    kept: the read returns the 1 assigned before it. *)
Lemma value_containing_itself_is_not_kept :
  (read "counter"
     (run [Write "counter" (VNumber 1); Write "items" VNull;
           Write "counter" (VArray [Some (VBack 0)] []); Read "counter"]
        (read "counter"
           (Demo.instance Demo.defaults (State true)
              (Demo.unused [true; true; true]))).2)).1 = VNumber 1.
Proof. by_computation. Qed.

(** ** The rows an instance can change *)

Lemma new_rows (options : PersistableOptions) (constructor : fid) (arg0 : argument)
    (fields : list (string * any)) (protos : list (list (string * any)))
    (db : sql) (log : list (level * string)) (w0 : world) (k : string) :
  new options constructor arg0 fields protos db log = Some w0 →
  table (store w0) ≫= lookup k = table db ≫= lookup k.
Proof.
  intros Hnew. destruct arg0 as [b|]; [|by injection Hnew as <-].
  destruct (new_store _ _ _ _ _ _ _ _ Hnew) as [-> _].
  unfold initializeStorage. simpl. destruct b; [|done].
  pose proof (exec_rows CreateTable db k ltac:(done)).
  by destruct (exec CreateTable db) as [[?|] ?].
Qed.

Lemma step_rows (w : world) (o : op) (k : string) :
  (∀ n c, field n w = Some c → k ≠ storageKey c) →
  table (store (step w o)) ≫= lookup k = table (store w) ≫= lookup k.
Proof.
  intros Hk. destruct o as [n|n v]; simpl.
  - unfold read. destruct (assoc n (own (this w))) as [[x|c]|]; try done.
    by rewrite get_rows.
  - unfold write. destruct (assoc n (own (this w))) as [[x|c]|] eqn:E; try done.
    apply set_rows. apply (Hk n). by apply field_Some.
Qed.

(** An instance stays inside its own rows.  Over its whole life, whatever its
    constructor argument and whatever is read or assigned, the only rows that
    can differ from what the store held before construction are those under
    [prefix] followed by the name of one of its wrapped properties: every
    other key holds what it held. *)
Theorem only_own_rows_change (options : PersistableOptions) (constructor : fid)
    (arg0 : argument) (fields : list (string * any))
    (protos : list (list (string * any))) (db : sql) (log : list (level * string))
    (w0 : world) (ops : list op) (k : string) :
  new options constructor arg0 fields protos db log = Some w0 →
  (∀ n, is_Some (field n w0) → k ≠ default "" (prefix options) +:+ n) →
  table (store (run ops w0)) ≫= lookup k = table db ≫= lookup k.
Proof.
  intros Hnew Hk. induction ops as [|o ops IH] using rev_ind.
  - by apply (new_rows options constructor arg0 fields protos db log).
  - rewrite run_snoc, <- IH. apply step_rows. intros n c Hf.
    destruct arg0 as [b|].
    + destruct (live_field _ _ _ _ _ _ _ _ _ _ _ Hnew Hf) as (Hf0 & -> & _).
      apply Hk. by rewrite Hf0.
    + rewrite field_None_run in Hf; [done|].
      by apply (new_Other options constructor fields protos db log).
Qed.

Lemma only_own_rows_change_witness :
  table (store (run [Write "counter" (VNumber 9); Write "items" VNull; Read "settings"]
                  (Demo.instance Demo.defaults (State true) (Demo.used []))))
    ≫= lookup "other:counter" =
  table (Demo.used []) ≫= lookup "other:counter".
Proof.
  refine (only_own_rows_change Demo.defaults Demo.MyDurableObject (State true)
            Demo.fields Demo.protos (Demo.used []) []
            (Demo.instance Demo.defaults (State true) (Demo.used []))
            [Write "counter" (VNumber 9); Write "items" VNull; Read "settings"]
            "other:counter" ltac:(by_computation) _).
  intros n [c Hc] Heq.
  change (default "" (prefix Demo.defaults) +:+ n) with n in Heq. subst n.
  vm_compute in Hc. discriminate.
Defined.

Lemma comparable_append (p q a b : string) :
  p +:+ a = q +:+ b → comparable p q = true.
Proof.
  revert q. induction p as [|ch p IH]; intros [|ch' q]; simpl; try done.
  intros [= -> H]. rewrite Ascii.eqb_refl. simpl. by apply IH.
Qed.

(** Prefixes separate instances that share a table.  When the prefix of an
    instance and another prefix [q] are such that neither begins with the
    other, no key under [q] is a storage key of the instance, and no row
    under [q] is ever changed by it. *)
Theorem prefixes_separate (options : PersistableOptions) (constructor : fid)
    (arg0 : argument) (fields : list (string * any))
    (protos : list (list (string * any))) (db : sql) (log : list (level * string))
    (w0 : world) (ops : list op) (q : string) :
  new options constructor arg0 fields protos db log = Some w0 →
  comparable (default "" (prefix options)) q = false →
  ∀ m,
    (∀ n c, field n (run ops w0) = Some c → storageKey c ≠ q +:+ m) ∧
    table (store (run ops w0)) ≫= lookup (q +:+ m) = table db ≫= lookup (q +:+ m).
Proof.
  intros Hnew Hcmp m.
  assert (Hne : ∀ n, q +:+ m ≠ default "" (prefix options) +:+ n).
  { intros n Heq. symmetry in Heq. apply comparable_append in Heq. congruence. }
  split.
  - intros n c Hf Heq. destruct arg0 as [b|].
    + destruct (live_field _ _ _ _ _ _ _ _ _ _ _ Hnew Hf) as (_ & Hkey & _).
      apply (Hne n). congruence.
    + rewrite field_None_run in Hf; [done|].
      by apply (new_Other options constructor fields protos db log).
  - induction ops as [|o ops IH] using rev_ind.
    + by apply (new_rows options constructor arg0 fields protos db log).
    + rewrite run_snoc, <- IH. apply step_rows. intros n c Hf.
      destruct arg0 as [b|].
      * destruct (live_field _ _ _ _ _ _ _ _ _ _ _ Hnew Hf) as (_ & -> & _).
        apply Hne.
      * rewrite field_None_run in Hf; [done|].
        by apply (new_Other options constructor fields protos db log).
Qed.

Lemma prefixes_separate_witness :
  (∀ n c,
     field n (run [Write "counter" (VNumber 9); Read "items"]
                (Demo.instance
                   {| exclude := None; include := None; prefix := Some "a:" |}
                   (State true) (Demo.used []))) = Some c →
     storageKey c ≠ "b:" +:+ "counter") ∧
  table (store (run [Write "counter" (VNumber 9); Read "items"]
                  (Demo.instance
                     {| exclude := None; include := None; prefix := Some "a:" |}
                     (State true) (Demo.used []))))
    ≫= lookup ("b:" +:+ "counter") =
  table (Demo.used []) ≫= lookup ("b:" +:+ "counter").
Proof.
  exact (prefixes_separate
           {| exclude := None; include := None; prefix := Some "a:" |}
           Demo.MyDurableObject (State true) Demo.fields Demo.protos (Demo.used []) []
           (Demo.instance {| exclude := None; include := None; prefix := Some "a:" |}
              (State true) (Demo.used []))
           [Write "counter" (VNumber 9); Read "items"] "b:"
           ltac:(by_computation) ltac:(by_computation) "counter").
Defined.

(** ** Lookups *)

Lemma lookups_app (key : string) (l l' : list stmt) :
  lookups key (l ++ l') = (lookups key l + lookups key l')%nat.
Proof. unfold lookups. by rewrite List.filter_app, length_app. Qed.

Lemma lookups_length (key : string) (l : list stmt) :
  (lookups key l ≤ length l)%nat.
Proof. apply List.filter_length_le. Qed.

Lemma lookups_none (key : string) (l : list stmt) :
  (∀ q, q ∈ l → is_lookup key q = false) → lookups key l = 0%nat.
Proof.
  unfold lookups. induction l as [|q l IH]; intros H; [done|]. simpl.
  rewrite (H q) by apply list_elem_of_here.
  apply IH. intros q' Hq'. apply H. by apply list_elem_of_further.
Qed.

Lemma write_pending (n name : string) (v : any) (w : world) :
  pending name (write n v w) = pending name w.
Proof.
  unfold pending. destruct (decide (n = name)) as [->|Hne].
  - destruct (field name w) as [c|] eqn:Hf.
    + by rewrite (field_write _ _ _ _ Hf).
    + change (write name v w) with (step w (Write name v)).
      by rewrite (field_None_step w (Write name v) name Hf).
  - change (write n v w) with (step w (Write n v)).
    by rewrite (step_other w (Write n v) name Hne).
Qed.

Lemma write_lookups (key n : string) (v : any) (w : world) :
  lookups key (journal (store (write n v w))) = lookups key (journal (store w)).
Proof.
  destruct (field n w) as [c|] eqn:Hf.
  - rewrite (write_wrapped _ _ _ _ Hf).
    destruct (set_statement n c v w) as (js & -> & _ & _ & Hq).
    rewrite lookups_app, (lookups_none key js); [lia|].
    intros q Hin. by destruct (Hq q Hin) as [x ->].
  - by destruct (write_unwrapped n v w Hf) as (-> & _).
Qed.

(** A step never raises the number of lookups under a property's key plus
    one for a first read still to come. *)
Lemma step_lookups (p name : string) (w : world) (o : op) :
  (∀ n c, field n w = Some c → storageKey c = p +:+ n) →
  (lookups (p +:+ name) (journal (store (step w o))) + pending name (step w o) ≤
   lookups (p +:+ name) (journal (store w)) + pending name w)%nat.
Proof.
  intros Hkeys. destruct o as [n|n v]; simpl.
  - destruct (field n w) as [c|] eqn:Hf; [|by rewrite read_unwrapped].
    rewrite (read_wrapped _ _ _ Hf).
    destruct (get_statement n c w) as (js & Hj & Hlen & _ & Hq). rewrite Hj, lookups_app.
    destruct (decide (n = name)) as [->|Hne].
    + unfold pending at 1. rewrite (field_get_eq _ _ _ Hf). simpl.
      destruct (initialized c) eqn:Ei.
      * rewrite get_initialized in Hj by done. simpl in Hj.
        assert (js = []) as ->.
        { apply (f_equal length) in Hj. rewrite length_app in Hj.
          destruct js; [done|simpl in Hj; lia]. }
        simpl. unfold lookups at 2. simpl. lia.
      * unfold pending. rewrite Hf, Ei. pose proof (lookups_length (p +:+ name) js). lia.
    + unfold pending. rewrite (field_get_ne _ _ _ _ Hne).
      rewrite (lookups_none (p +:+ name) js); [lia|].
      intros q ->%Hq. simpl. apply String.eqb_neq.
      rewrite (Hkeys _ _ Hf). intros Heq%append_inj. done.
  - rewrite write_pending, write_lookups. lia.
Qed.

(** The store is asked for a property at most once.  Over the whole life of
    an instance, whatever is read or assigned and however often, at most one
    lookup under the storage key of any one name is added to the statements
    the store had seen before construction. *)
Theorem looked_up_at_most_once (options : PersistableOptions) (constructor : fid)
    (b : bool) (fields : list (string * any)) (protos : list (list (string * any)))
    (db : sql) (log : list (level * string)) (w0 : world) (ops : list op)
    (name : string) :
  new options constructor (State b) fields protos db log = Some w0 →
  (lookups (default "" (prefix options) +:+ name) (journal (store (run ops w0))) ≤
   lookups (default "" (prefix options) +:+ name) (journal db) + 1)%nat.
Proof.
  intros Hnew.
  enough (lookups (default "" (prefix options) +:+ name) (journal (store (run ops w0)))
          + pending name (run ops w0) ≤
          lookups (default "" (prefix options) +:+ name) (journal db) + 1)%nat by lia.
  induction ops as [|o ops IH] using rev_ind.
  - simpl. destruct (new_store _ _ _ _ _ _ _ _ Hnew) as [-> _].
    unfold initializeStorage. simpl.
    assert (pending name w0 ≤ 1)%nat.
    { unfold pending. destruct (field name w0) as [c|]; [|lia].
      destruct (initialized c); lia. }
    destruct b; simpl; [|lia].
    pose proof (exec_journal CreateTable db) as Hj.
    assert (lookups (default "" (prefix options) +:+ name)
              (journal (exec CreateTable db).2) =
            lookups (default "" (prefix options) +:+ name) (journal db)) as Hl.
    { rewrite Hj, lookups_app. unfold lookups at 2. simpl. lia. }
    destruct (exec CreateTable db) as [[?|] ?]; simpl in *; lia.
  - rewrite run_snoc.
    pose proof (step_lookups (default "" (prefix options)) name (run ops w0) o) as Hs.
    etrans; [apply Hs|exact IH].
    intros n c Hf.
    by destruct (live_field _ _ _ _ _ _ _ _ _ _ _ Hnew Hf) as (_ & -> & _).
Qed.

Lemma looked_up_at_most_once_witness :
  (lookups (default "" (prefix Demo.defaults) +:+ "counter")
     (journal (store (run [Read "counter"; Write "counter" (VNumber 1); Read "counter";
                           Read "counter"]
                        (Demo.instance Demo.defaults (State true) (Demo.used []))))) ≤
   lookups (default "" (prefix Demo.defaults) +:+ "counter") (journal (Demo.used [])) + 1)%nat.
Proof.
  exact (looked_up_at_most_once Demo.defaults Demo.MyDurableObject true Demo.fields
           Demo.protos (Demo.used []) []
           (Demo.instance Demo.defaults (State true) (Demo.used []))
           [Read "counter"; Write "counter" (VNumber 1); Read "counter"; Read "counter"]
           "counter" ltac:(by_computation)).
Defined.

(** ** What is logged *)

Lemma get_message (name : string) (c : cell) (w : world) :
  console (get name c w).2 = console w ∨
  console (get name c w).2 =
    console w ++ [(warn, "Failed to load persisted property " +:+ name +:+ ":")].
Proof.
  destruct (initialized c) eqn:Ei.
  - left. by rewrite get_initialized.
  - rewrite get_uninitialized by done. simpl. unfold load.
    destruct (has_sql (this w)); [|by left].
    destruct (exec _ _) as [[[|r l]|] db]; [by left | | by right].
    destruct (JSON_parse r); [by left | by right].
Qed.

Lemma set_message (name : string) (c : cell) (v : any) (w : world) :
  console (after w (set name c v w)) = console w ∨
  console (after w (set name c v w)) =
    console w ++ [(error, "Failed to persist property " +:+ name +:+ ":")] ∨
  console (after w (set name c v w)) =
    console w ++
      [(warn, "Property " +:+ name +:+ " is not serializable and won't be persisted")].
Proof.
  unfold set. destruct (isSerializable v) as [[|]|]; simpl; [|by right; right|by left].
  destruct (has_sql (this w)); [|by left].
  destruct (JSON_stringify v) as [j| |]; [| |by right; left].
  - destruct (exec _ _) as [[?|] ?]; [by left | by right; left].
  - destruct (exec _ _) as [[?|] ?]; [by left | by right; left].
Qed.

Lemma step_message (w : world) (o : op) :
  console (step w o) = console w ∨
  ∃ n, is_Some (field n w) ∧
    (console (step w o) =
       console w ++ [(warn, "Failed to load persisted property " +:+ n +:+ ":")] ∨
     console (step w o) =
       console w ++ [(error, "Failed to persist property " +:+ n +:+ ":")] ∨
     console (step w o) =
       console w ++
         [(warn, "Property " +:+ n +:+ " is not serializable and won't be persisted")]).
Proof.
  destruct o as [n|n v]; simpl.
  - destruct (field n w) as [c|] eqn:Hf; [|left; by rewrite read_unwrapped].
    rewrite (read_wrapped _ _ _ Hf).
    destruct (get_message n c w) as [H|H]; [by left|].
    right. exists n. rewrite Hf. split; [done | by left].
  - destruct (field n w) as [c|] eqn:Hf.
    + rewrite (write_wrapped _ _ _ _ Hf).
      destruct (set_message n c v w) as [H|H]; [by left|].
      right. exists n. rewrite Hf. split; [done | by right].
    + left. by destruct (write_unwrapped n v w Hf) as (_ & -> & _).
Qed.

(** What an instance logs.  Over the whole life of an instance constructed
    with a state argument, an operation adds at most one line to the console,
    and every line added is one of three about a wrapped property: the
    warning that its row could not be loaded, the error that its value could
    not be persisted, or the warning that the value assigned is not
    serializable. *)
Theorem messages_logged (options : PersistableOptions) (constructor : fid)
    (b : bool) (fields : list (string * any)) (protos : list (list (string * any)))
    (db : sql) (log : list (level * string)) (w0 : world) (ops : list op) :
  new options constructor (State b) fields protos db log = Some w0 →
  ∃ ls,
    console (run ops w0) = console w0 ++ ls ∧
    (length ls ≤ length ops)%nat ∧
    (∀ l, l ∈ ls → ∃ n,
       is_Some (field n w0) ∧
       (l = (warn, "Failed to load persisted property " +:+ n +:+ ":") ∨
        l = (error, "Failed to persist property " +:+ n +:+ ":") ∨
        l = (warn, "Property " +:+ n +:+ " is not serializable and won't be persisted"))).
Proof.
  intros Hnew. induction ops as [|o ops IH] using rev_ind.
  - exists []. rewrite app_nil_r. split_and!; [done | simpl; lia | by intros l ?%elem_of_nil].
  - destruct IH as (ls & Hc & Hlen & Hl). rewrite run_snoc.
    destruct (step_message (run ops w0) o) as [Hs|(n & [c Hf] & Hs)].
    + exists ls. rewrite Hs. split_and!; [done | rewrite length_app; simpl; lia | done].
    + destruct (live_field _ _ _ _ _ _ _ _ _ _ _ Hnew Hf) as (Hf0 & _).
      assert (∃ l, console (step (run ops w0) o) = console (run ops w0) ++ [l] ∧
                (l = (warn, "Failed to load persisted property " +:+ n +:+ ":") ∨
                 l = (error, "Failed to persist property " +:+ n +:+ ":") ∨
                 l = (warn, "Property " +:+ n +:+
                              " is not serializable and won't be persisted")))
        as (l & Hs' & Hcase).
      { destruct Hs as [Hs|[Hs|Hs]]; eexists; (split; [exact Hs|]); auto. }
      exists (ls ++ [l]). split_and!.
      * by rewrite Hs', Hc, <- app_assoc.
      * rewrite !length_app. simpl. lia.
      * intros l' [Hin| ->%list_elem_of_singleton]%elem_of_app; [by apply Hl|].
        exists n. rewrite Hf0. split; [done|exact Hcase].
Qed.

Lemma messages_logged_witness :
  ∃ ls,
    console (run [Write "counter" (Demo.closure 1); Read "items";
                  Write "items" VNull]
               (Demo.instance Demo.defaults (State true)
                  (Demo.unused [false; true; true]))) =
      console (Demo.instance Demo.defaults (State true)
                 (Demo.unused [false; true; true])) ++ ls ∧
    (length ls ≤ length [Write "counter" (Demo.closure 1); Read "items";
                         Write "items" VNull])%nat ∧
    (∀ l, l ∈ ls → ∃ n,
       is_Some (field n (Demo.instance Demo.defaults (State true)
                           (Demo.unused [false; true; true]))) ∧
       (l = (warn, "Failed to load persisted property " +:+ n +:+ ":") ∨
        l = (error, "Failed to persist property " +:+ n +:+ ":") ∨
        l = (warn, "Property " +:+ n +:+ " is not serializable and won't be persisted"))).
Proof.
  exact (messages_logged Demo.defaults Demo.MyDurableObject true Demo.fields
           Demo.protos (Demo.unused [false; true; true]) []
           (Demo.instance Demo.defaults (State true) (Demo.unused [false; true; true]))
           [Write "counter" (Demo.closure 1); Read "items"; Write "items" VNull]
           ltac:(by_computation)).
Defined.
